(** * ozbargain-tracker: the crawl, diff and persist pipeline of
    [alert_on_new_posts.py]

    The script is embedded function by function.

    - Python strings are modelled by the bytes of their UTF-8 encoding
      ([string]): concatenation, equality, emptiness and [startswith] are
      those of the bytes, and [strip] removes the encodings of the
      characters [str.isspace] accepts.
    - The module level side effects (stdout, HTTP, the state file, the mail
      API) are threaded through a state-and-exception monad over a [world],
      which also holds the one list object [all_posts] the recursive calls
      of [scrape_page] share.
    - What the outside answers is read from an [env], fixed for a run: the
      process environment, the answer of the web to each URL, the clock,
      the faults of the disk and the answer of the mail API.
    - The state file is modelled at the level of CSV rows, as
      [csv.DictReader] and [csv.DictWriter] see it.
    - The recursion of [scrape_page] is bounded by a fuel, the depth of
      recursion at hand; running out of it is an outcome of its own. *)

From stdpp Require Import base strings gmap list pretty.

#[local] Set Warnings "-clear-no-such-hyp".

(** ** Data model *)

(** A scraped post: the dict [{"title": .., "link": .., "date": ..}] that
    [scrape_page] appends (line 103). *)
Record post := Post { title : string; link : string; date : string }.

Global Instance post_eq_dec : EqDecision post.
Proof. solve_decision. Defined.

(** What BeautifulSoup exposes of a parsed page, restricted to the queries
    [scrape_page] makes. *)
Record dd_tag := DD {
  select_one_span_meta : option string  (* dd.select_one("span.meta"), its get_text(strip=True) *)
}.

Record dt_tag := DT {
  find_next_sibling_dd : option dd_tag  (* dt.find_next_sibling("dd") *)
}.

Record a_tag := Anchor {
  get_text : string;                    (* a.get_text(" ", strip=True) *)
  get_href : option string;             (* a.get("href") *)
  find_parent_dt : option dt_tag        (* a.find_parent("dt") *)
}.

Record soup := Soup {
  select_primary : list a_tag;          (* soup.select("dl.search-results dt.title a") *)
  select_fallback : list a_tag;         (* soup.select("dt.title a") *)
  select_one_next : option a_tag        (* soup.select_one('li a[title="Go to next page"]') *)
}.

(** [requests.get] followed by [raise_for_status]: a parsed page, or a
    [requests.RequestException] with its text. *)
Inductive response :=
| RequestException (e : string)
| Page (s : soup).

(** A row of the state file as [csv.DictReader] yields it and
    [csv.DictWriter] takes it: a dict from column name to value. *)
Abbreviation row := (gmap string string).

(** The [params] dict handed to [resend.Emails.send]. *)
Record email := Email {
  from : string;
  to : list string;
  subject : string;
  html : string
}.

(** Observable actions, in the order they happen. *)
Inductive event :=
| Stdout (line : string)
| HttpGet (url : string)
| Sleep (seconds : nat)
| PathExists
| MakeDirs
| OpenRead
| OpenWrite
| EmailSend (params : email).

(** The mutable part: the one list object [all_posts] that
    [scrape_all_pages] creates and every recursive [scrape_page] call
    appends to, the content of [LAST_POSTS_FILE] ([None]: no such file),
    and the trace of actions so far. *)
Record world := World {
  all_posts : list post;
  state_file : option (list row);
  trace : list event
}.

(** The outside, fixed for one run. *)
Record env := Env {
  environ : gmap string string;                  (* os.environ *)
  web : string → response;                       (* what a GET of a URL answers *)
  strftime_now : string;                         (* time.strftime('%Y-%m-%d %H:%M:%S') *)
  makedirs_error : option string;                (* os.makedirs raises OSError *)
  read_error : option (nat * string);            (* the reader raises after yielding that many rows *)
  write_error : option (string * option (list row));
                                                 (* the writer raises, leaving that content on disk *)
  resend_send : email → option string + string   (* the response's id, or the exception raised *)
}.

(** ** The monad: state over [world], Python exceptions, fuel *)

(** The exceptions the embedding raises: [sys.exit] (line 36), the
    [str + None] of line 113 and the [OSError] of [os.makedirs] (line 156).
    What the interpreter and the libraries may raise besides (a parser
    rejecting the markup at line 75, [RecursionError] at line 119, an
    encoding error of [print]) is not modelled; running out of recursion
    depth is the outcome [OutOfFuel] below. *)
Inductive exn :=
| SystemExit (code : Z)
| TypeError
| OSError (msg : string).

Inductive res (A : Type) :=
| Val (a : A)
| Raise (e : exn)
| OutOfFuel.
Arguments Val {A} a.
Arguments Raise {A} e.
Arguments OutOfFuel {A}.

Definition M (A : Type) : Type := world → res A * world.

Global Instance M_ret : MRet M := λ A a w, (Val a, w).

Global Instance M_bind : MBind M := λ A B f m w,
  match m w with
  | (Val a, w') => f a w'
  | (Raise e, w') => (Raise e, w')
  | (OutOfFuel, w') => (OutOfFuel, w')
  end.

Definition raise {A} (e : exn) : M A := λ w, (Raise e, w).

Definition out_of_fuel {A} : M A := λ w, (OutOfFuel, w).

Definition emit (ev : event) : M () := λ w,
  (Val (), World (all_posts w) (state_file w) (trace w ++ [ev])).

Definition print (line : string) : M () := emit (Stdout line).

(** The exit status the interpreter reports: 0 when the script runs off its
    end, the code of [sys.exit], 1 for any other uncaught exception. *)
Definition exit_status {A} (r : res A) : option Z :=
  match r with
  | Val _ => Some 0%Z
  | Raise (SystemExit code) => Some code
  | Raise _ => Some 1%Z
  | OutOfFuel => None
  end.

(** ** String helpers of the Python runtime *)

(** [s.startswith(pre)] *)
Definition startswith (s pre : string) : bool := String.prefix pre s.

(** [sep.join(l)] *)
Definition join (sep : string) (l : list string) : string := String.concat sep l.

Definition str_of_bytes (l : list nat) : string :=
  foldr (λ n s, String (Ascii.ascii_of_nat n) s) "" l.

(** The characters [str.isspace] accepts, as UTF-8: U+0009..U+000D,
    U+001C..U+0020, U+0085, U+00A0, U+1680, U+2000..U+200A, U+2028, U+2029,
    U+202F, U+205F, U+3000. *)
Definition whitespace : list string :=
  str_of_bytes <$>
    [ [9]; [10]; [11]; [12]; [13]; [28]; [29]; [30]; [31]; [32];
      [194; 133]; [194; 160]; [225; 154; 128];
      [226; 128; 128]; [226; 128; 129]; [226; 128; 130]; [226; 128; 131];
      [226; 128; 132]; [226; 128; 133]; [226; 128; 134]; [226; 128; 135];
      [226; 128; 136]; [226; 128; 137]; [226; 128; 138];
      [226; 128; 168]; [226; 128; 169]; [226; 128; 175];
      [226; 129; 159]; [227; 128; 128] ].

(** [Some rest] when [s = pre +:+ rest]. *)
Fixpoint drop_prefix (pre s : string) : option string :=
  match pre, s with
  | EmptyString, _ => Some s
  | String a pre', String b s' =>
      if bool_decide (a = b) then drop_prefix pre' s' else None
  | String _ _, EmptyString => None
  end.

Fixpoint string_rev (s : string) : string :=
  match s with
  | EmptyString => EmptyString
  | String a s' => string_rev s' +:+ String a EmptyString
  end.

(** Drop one leading character out of [chars], if there is one. *)
Fixpoint drop_one (chars : list string) (s : string) : option string :=
  match chars with
  | [] => None
  | c :: chars' =>
      match drop_prefix c s with
      | Some rest => Some rest
      | None => drop_one chars' s
      end
  end.

Fixpoint drop_leading (n : nat) (chars : list string) (s : string) : string :=
  match n with
  | 0 => s
  | S n' =>
      match drop_one chars s with
      | Some rest => drop_leading n' chars rest
      | None => s
      end
  end.

Definition lstrip (s : string) : string :=
  drop_leading (String.length s) whitespace s.

Definition rstrip (s : string) : string :=
  string_rev (drop_leading (String.length s) (string_rev <$> whitespace) (string_rev s)).

(** [s.strip()] *)
Definition strip (s : string) : string := rstrip (lstrip s).

(** ** Configuration and validation (lines 13-51) *)

Definition required_vars : list string :=
  [ "URL"; "LAST_POSTS_FILE"; "SENDER_EMAIL"; "RECIPIENT_EMAIL"; "TITLE";
    "RESEND_API_KEY" ].

(** [not os.environ.get(var)]: unset, or set to the empty string. *)
Definition is_missing (environ : gmap string string) (var : string) : bool :=
  match environ !! var with
  | None => true
  | Some v => bool_decide (v = "")
  end.

(** The [for var in required_vars] loop (lines 23-27). *)
Definition missing_vars (environ : gmap string string) : list string :=
  foldl (λ missing var, if is_missing environ var then missing ++ [var] else missing)
        [] required_vars.

Definition check_environment_vars (environ : gmap string string) : M () :=
  match missing_vars environ with
  | [] => mret ()
  | missing =>
      print "--- ‚ùå CRITICAL ERROR ---";;
      print ("The following required environment variables are missing: "
             +:+ join ", " missing);;
      print "Script aborted.";;
      raise (SystemExit 1)
  end.

(** The module globals of lines 43-51.  They are read after
    [check_environment_vars] has returned, when every key is bound to a
    non-empty string (lemma [check_passes_bound]); the default is never
    taken. *)
Definition getenv (e : env) (var : string) : string := default "" (environ e !! var).

Definition URL (e : env) : string := getenv e "URL".
Definition LAST_POSTS_FILE (e : env) : string := getenv e "LAST_POSTS_FILE".
Definition SENDER_EMAIL (e : env) : string := getenv e "SENDER_EMAIL".
Definition RECIPIENT_EMAIL (e : env) : string := getenv e "RECIPIENT_EMAIL".
Definition TITLE (e : env) : string := getenv e "TITLE".
Definition BASE_URL : string := "https://www.ozbargain.com.au".
Definition resend_api_key (e : env) : string := getenv e "RESEND_API_KEY".

(** ** Scraping (lines 57-131) *)

(** [requests.get(url, ...)] and [raise_for_status()] (lines 72-73). *)
Definition requests_get (e : env) (url : string) : M response := λ w,
  (Val (web e url), World (all_posts w) (state_file w) (trace w ++ [HttpGet url])).

(** [time.sleep] *)
Definition sleep (seconds : nat) : M () := emit (Sleep seconds).

(** Reading the list object. *)
Definition get_all_posts : M (list post) := λ w, (Val (all_posts w), w).

(** [all_posts.append(p)]: in place, seen by every holder of the list. *)
Definition all_posts_append (p : post) : M () := λ w,
  (Val (), World (all_posts w ++ [p]) (state_file w) (trace w)).

(** [all_posts = []] (line 130): a fresh list object. *)
Definition new_all_posts : M () := λ w,
  (Val (), World [] (state_file w) (trace w)).

(** Lines 92-99: the date of the following [dd], or the empty string. *)
Definition date_text_of (a : a_tag) : string :=
  match find_parent_dt a with
  | Some dt =>
      match find_next_sibling_dd dt with
      | Some dd =>
          match select_one_span_meta dd with
          | Some text => text
          | None => ""
          end
      | None => ""
      end
  | None => ""
  end.

(** Line 101. *)
Definition link_full_of (href : string) : string :=
  if startswith href "/" then BASE_URL +:+ href else href.

(** Lines 86-101: the dict an anchor gives rise to; [None] is the
    [continue] of line 89. *)
Definition entry_of (a : a_tag) : option post :=
  let title := get_text a in
  let href := default "" (get_href a) in
  if bool_decide (href = "") || bool_decide (title = "") then None
  else Some (Post title (link_full_of href) (date_text_of a)).

(** [any(p.get("link") == link_full for p in all_posts)] *)
Definition any_link (link_full : string) (posts : list post) : bool :=
  existsb (λ p, bool_decide (link p = link_full)) posts.

(** The body of the [for a in search_result_links] loop (lines 84-103). *)
Definition scrape_entry (a : a_tag) : M () :=
  match entry_of a with
  | None => mret ()
  | Some p =>
      posts ← get_all_posts;
      if any_link (link p) posts then mret () else all_posts_append p
  end.

Fixpoint for_each {A} (l : list A) (body : A → M ()) : M () :=
  match l with
  | [] => mret ()
  | x :: l' => body x;; for_each l' body
  end.

(** Lines 80-82: the primary selector, or the looser one when it matches
    nothing. *)
Definition search_result_links (s : soup) : list a_tag :=
  match select_primary s with
  | [] => select_fallback s
  | links => links
  end.

(** [BASE_URL + next_relative_url] (line 113): [str + None] is a
    [TypeError]. *)
Definition base_url_plus (next_relative_url : option string) : M string :=
  match next_relative_url with
  | Some href => mret (BASE_URL +:+ href)
  | None => raise TypeError
  end.

(** [scrape_page(url, all_posts)].  The recursion of line 119 is bounded by
    [fuel]; the value it returns is dropped there, the list it appended to
    is the caller's.  Only [requests.RequestException] is caught (line
    123), and every such exception is raised by lines 72-73. *)
Fixpoint scrape_page (e : env) (fuel : nat) (url : string) : M (list post) :=
  match fuel with
  | 0 => out_of_fuel
  | S fuel' =>
      print ("Scraping page: " +:+ url);;
      r ← requests_get e url;
      match r with
      | RequestException err =>
          print ("Error fetching URL " +:+ url +:+ ": " +:+ err);;
          get_all_posts
      | Page s =>
          for_each (search_result_links s) scrape_entry;;
          match select_one_next s with
          | Some next_link_tag =>
              next_full_url ← base_url_plus (get_href next_link_tag);
              sleep 1;;
              scrape_page e fuel' next_full_url;;
              mret ()
          | None => mret ()
          end;;
          get_all_posts
      end
  end.

Definition scrape_all_pages (e : env) (fuel : nat) (start_url : string) : M (list post) :=
  new_all_posts;;
  scrape_page e fuel start_url.

(** ** The state file (lines 137-171) *)

(** [os.path.exists(LAST_POSTS_FILE)] *)
Definition os_path_exists : M bool := λ w,
  (Val (bool_decide (is_Some (state_file w))),
   World (all_posts w) (state_file w) (trace w ++ [PathExists])).

(** Opening the file and iterating the [csv.DictReader]: the rows it yields
    before it stops, and the exception that stopped it, if any. *)
Definition read_rows (e : env) : M (list row * option string) := λ w,
  let rows := default [] (state_file w) in
  (Val (match read_error e with
        | None => (rows, None)
        | Some (n, err) => (take n rows, Some err)
        end),
   World (all_posts w) (state_file w) (trace w ++ [OpenRead])).

(** Lines 146-148, for one row. *)
Definition add_seen_link (seen_links : gset string) (r : row) : gset string :=
  let link_value := strip (default "" (r !! "link")) in
  if bool_decide (link_value = "") then seen_links else seen_links ∪ {[ link_value ]}.

Definition load_last_posts (e : env) : M (gset string) :=
  found ← os_path_exists;
  if negb found then mret ∅
  else
    '(rows, failure) ← read_rows e;
    let seen_links := foldl add_seen_link ∅ rows in
    match failure with
    | Some err =>
        print ("Warning: failed to read " +:+ LAST_POSTS_FILE e +:+ ": " +:+ err);;
        mret seen_links
    | None => mret seen_links
    end.

(** [os.makedirs(os.path.dirname(LAST_POSTS_FILE), exist_ok=True)], outside
    the [try] of [save_current_posts]. *)
Definition os_makedirs (e : env) : M () :=
  emit MakeDirs;;
  match makedirs_error e with
  | Some err => raise (OSError err)
  | None => mret ()
  end.

(** The dict of lines 164-168. *)
Definition row_of_post (p : post) : row :=
  <["title" := title p]> (<["link" := link p]> (<["date" := date p]> ∅)).

(** Opening the file for writing and writing the header and the rows:
    [None] when all of it went through, the exception otherwise. *)
Definition write_rows (e : env) (rows : list row) : M (option string) := λ w,
  match write_error e with
  | None =>
      (Val None, World (all_posts w) (Some rows) (trace w ++ [OpenWrite]))
  | Some (err, left_on_disk) =>
      (Val (Some err), World (all_posts w) left_on_disk (trace w ++ [OpenWrite]))
  end.

Definition save_current_posts (e : env) (posts : list post) : M () :=
  os_makedirs e;;
  failure ← write_rows e (row_of_post <$> posts);
  match failure with
  | Some err => print ("Warning: failed to write " +:+ LAST_POSTS_FILE e +:+ ": " +:+ err)
  | None => mret ()
  end.

(** ** The delta (lines 174-176) *)

(** The list comprehension
    [[post for post in current_posts if post.get("link") not in last_post_links]]. *)
Fixpoint check_for_new_posts (current_posts : list post) (last_post_links : gset string)
  : list post :=
  match current_posts with
  | [] => []
  | post :: rest =>
      if bool_decide (link post ∈ last_post_links)
      then check_for_new_posts rest last_post_links
      else post :: check_for_new_posts rest last_post_links
  end.

(** ** The alert (lines 179-211) *)

Definition nl : string := String (Ascii.ascii_of_nat 10) "".

(** One turn of the [for post in new_posts] loop (lines 188-196). *)
Definition html_add (html_body : string) (p : post) : string :=
  html_body +:+ nl
  +:+ "        <p>" +:+ nl
  +:+ "            title: " +:+ title p +:+ nl
  +:+ "            date: " +:+ date p +:+ nl
  +:+ "            link: " +:+ link p +:+ nl
  +:+ "        </p>" +:+ nl
  +:+ "        <hr>" +:+ nl
  +:+ "        ".

Definition alert_params (e : env) (new_posts : list post) : email :=
  {| from := SENDER_EMAIL e;
     to := [RECIPIENT_EMAIL e];
     subject := "üö® " +:+ TITLE e +:+ " Alert: " +:+ pretty (length new_posts)
                +:+ " New Posts Found";
     html := foldl html_add ("<h1>New Deals Found: " +:+ TITLE e +:+ "</h1>") new_posts |}.

(** [resend.Emails.send(params)] *)
Definition resend_emails_send (e : env) (params : email) : M (option string + string) := λ w,
  (Val (resend_send e params),
   World (all_posts w) (state_file w) (trace w ++ [EmailSend params])).

Definition send_alert_email (e : env) (new_posts : list post) : M () :=
  if bool_decide (resend_api_key e = "")
  then print "Error: RESEND_API_KEY not set. Cannot send email."
  else
    r ← resend_emails_send e (alert_params e new_posts);
    match r with
    | inl id => print ("Email sent. ID: " +:+ default "None" id)
    | inr err => print ("Error sending email with Resend: " +:+ err)
    end.

(** ** Main execution (lines 216-236) *)

Definition banner (e : env) : string :=
  "--- Running Scraper: " +:+ TITLE e +:+ " at " +:+ strftime_now e +:+ " ---".

Definition found_line (new_posts : list post) : string :=
  "üéâ Found " +:+ pretty (length new_posts) +:+ " new posts! Sending email alert...".

(** Lines 232-236. *)
Definition report (e : env) (new_posts : list post) : M () :=
  match new_posts with
  | [] => print "No new posts since last check."
  | _ :: _ =>
      print (found_line new_posts);;
      send_alert_email e new_posts
  end.

Definition main (e : env) (fuel : nat) : M () :=
  print (banner e);;
  current_posts ← scrape_all_pages e fuel (URL e);
  match current_posts with
  | [] => print "No posts found or scraping failed. Exiting."
  | _ :: _ =>
      last_post_links ← load_last_posts e;
      let new_posts := check_for_new_posts current_posts last_post_links in
      save_current_posts e current_posts;;
      report e new_posts
  end.

(** The script run as [__main__]: the check of line 40 first, then the
    main block. *)
Definition script (e : env) (fuel : nat) : M () :=
  check_environment_vars (environ e);;
  main e fuel.

(** ** Notions the statements use *)

(** The URLs requested, oldest first. *)
Definition requested (t : list event) : list string :=
  omap (λ ev, match ev with HttpGet url => Some url | _ => None end) t.

(** The pages the requests were answered with. *)
Definition answered (e : env) (urls : list string) : list soup :=
  omap (λ url, match web e url with Page s => Some s | RequestException _ => None end) urls.

(** The entries a page offers, in document order, before any
    deduplication. *)
Definition page_entries (s : soup) : list post :=
  omap entry_of (search_result_links s).

(** The entries a crawl has come across, in page order then document
    order. *)
Definition discovered (e : env) (t : list event) : list post :=
  answered e (requested t) ≫= page_entries.

(** The first-wins reading of the specification: walk the entries in order
    and keep one exactly when no earlier entry had its link. *)
Fixpoint first_wins_from (seen : gset string) (entries : list post) : list post :=
  match entries with
  | [] => []
  | p :: rest =>
      if bool_decide (link p ∈ seen) then first_wins_from seen rest
      else p :: first_wins_from ({[ link p ]} ∪ seen) rest
  end.

Definition first_wins (entries : list post) : list post := first_wins_from ∅ entries.

Definition distinct_links (posts : list post) : Prop := NoDup (link <$> posts).

(** Events that touch the state file or the mail API. *)
Definition is_file_or_mail (ev : event) : bool :=
  match ev with
  | PathExists | MakeDirs | OpenRead | OpenWrite | EmailSend _ => true
  | Stdout _ | HttpGet _ | Sleep _ => false
  end.


(** Lines 102-103 as a function of the list: what one entry does to it. *)
Definition append_if_new (posts : list post) (p : post) : list post :=
  if any_link (link p) posts then posts else posts ++ [p].

(** The entries of a page, or of several, merged into the list in order. *)
Definition merge (posts entries : list post) : list post :=
  foldl append_if_new posts entries.

(** World updates. *)
Definition log (t : list event) (w : world) : world :=
  World (all_posts w) (state_file w) (trace w ++ t).

Definition with_posts (posts : list post) (w : world) : world :=
  World posts (state_file w) (trace w).

(** [chain e url pages]: from [url] on, the web answers with [pages] in
    turn; every page but the last exposes a next-page anchor whose href,
    after [BASE_URL], is the URL of the following page; the last exposes
    none. *)
Fixpoint chain (e : env) (url : string) (pages : list (string * soup)) : Prop :=
  match pages with
  | [] => False
  | (u, s) :: rest =>
      u = url ∧ web e u = Page s ∧
      match rest with
      | [] => select_one_next s = None
      | _ :: _ =>
          ∃ tag href, select_one_next s = Some tag ∧ get_href tag = Some href ∧
                      chain e (BASE_URL +:+ href) rest
      end
  end.

(** [broken_chain e url pages bad err]: from [url] on, the web answers with
    [pages] in turn, each exposing a next-page anchor with an href, and the
    request that follows the last of them, for [bad], fails with [err]. *)
Fixpoint broken_chain (e : env) (url : string) (pages : list (string * soup))
    (bad err : string) : Prop :=
  match pages with
  | [] => url = bad ∧ web e bad = RequestException err
  | (u, s) :: rest =>
      u = url ∧ web e u = Page s ∧
      ∃ tag href, select_one_next s = Some tag ∧ get_href tag = Some href ∧
                  broken_chain e (BASE_URL +:+ href) rest bad err
  end.

(** What a crawl along a chain leaves in the trace. *)
Fixpoint chain_trace (pages : list (string * soup)) : list event :=
  match pages with
  | [] => []
  | (u, _) :: rest =>
      [Stdout ("Scraping page: " +:+ u); HttpGet u]
      ++ match rest with
         | [] => []
         | _ :: _ => Sleep 1 :: chain_trace rest
         end
  end.

Fixpoint broken_trace (pages : list (string * soup)) (bad err : string) : list event :=
  match pages with
  | [] =>
      [Stdout ("Scraping page: " +:+ bad); HttpGet bad;
       Stdout ("Error fetching URL " +:+ bad +:+ ": " +:+ err)]
  | (u, _) :: rest =>
      [Stdout ("Scraping page: " +:+ u); HttpGet u; Sleep 1]
      ++ broken_trace rest bad err
  end.

(** The entries of the pages of a chain, in page order then document
    order. *)
Definition chain_entries (pages : list (string * soup)) : list post :=
  pages.*2 ≫= page_entries.

(** Events of a crawl: printing, requesting, sleeping. *)
Definition crawl_event (ev : event) : Prop := is_file_or_mail ev = false.

(** No read, write or directory fault on the state file. *)
Definition disk_sound (e : env) : Prop :=
  makedirs_error e = None ∧ read_error e = None ∧ write_error e = None.

(** ** Fixtures *)

Module Fixture.

Definition environ : gmap string string :=
  <["URL" := "https://www.ozbargain.com.au/deals"]>
  (<["LAST_POSTS_FILE" := "data/last_posts.csv"]>
  (<["SENDER_EMAIL" := "alerts@example.org"]>
  (<["RECIPIENT_EMAIL" := "me@example.org"]>
  (<["TITLE" := "Deals"]>
  (<["RESEND_API_KEY" := "re_key"]> ∅))))).

(** [SENDER_EMAIL] unset and [TITLE] set to the empty string. *)
Definition environ_incomplete : gmap string string :=
  <["URL" := "https://www.ozbargain.com.au/deals"]>
  (<["LAST_POSTS_FILE" := "data/last_posts.csv"]>
  (<["RECIPIENT_EMAIL" := "me@example.org"]>
  (<["TITLE" := ""]>
  (<["RESEND_API_KEY" := "re_key"]> ∅)))).

Definition dated (d : string) : option dt_tag := Some (DT (Some (DD (Some d)))).

Definition url1 : string := "https://www.ozbargain.com.au/deals".
Definition url2 : string := "https://www.ozbargain.com.au/deals?page=1".
Definition url3 : string := "https://www.ozbargain.com.au/deals?page=2".

Definition next (href : string) : option a_tag :=
  Some (Anchor "next" (Some href) None).

Definition page1 : soup :=
  Soup [ Anchor "Deal A" (Some "/node/1") (dated "01/02/2025");
         Anchor "Deal B" (Some "https://external.example/x") None ]
       [] (next "/deals?page=1").

(** Its first anchor repeats a link of page 1 under another title. *)
Definition page2 : soup :=
  Soup [ Anchor "Deal A (repost)" (Some "/node/1") (dated "02/02/2025");
         Anchor "Deal C" (Some "/node/3") (dated "02/02/2025") ]
       [] (next "/deals?page=2").

Definition page3 : soup :=
  Soup [] [ Anchor "Deal D" (Some "/node/4") None ] None.

Definition pages : list (string * soup) :=
  [ (url1, page1); (url2, page2); (url3, page3) ].

Definition web_up (url : string) : response :=
  if bool_decide (url = url1) then Page page1
  else if bool_decide (url = url2) then Page page2
  else if bool_decide (url = url3) then Page page3
  else RequestException "404 Client Error".

(** Page 2 cannot be fetched. *)
Definition web_page2_down (url : string) : response :=
  if bool_decide (url = url1) then Page page1
  else RequestException "503 Server Error".

Definition web_down (url : string) : response :=
  RequestException "Connection refused".

(** One listing page whose only anchor has an href ending in a space. *)
Definition page_spaced : soup :=
  Soup [ Anchor "Deal S" (Some "/node/7 ") None ] [] None.

Definition web_spaced (url : string) : response :=
  if bool_decide (url = url1) then Page page_spaced
  else RequestException "404 Client Error".

Definition mail_ok (params : email) : option string + string := inl (Some "msg-1").

Definition env_of (web : string → response) : env :=
  Env environ web "2025-02-02 08:00:00" None None None mail_ok.

Definition env_up : env := env_of web_up.
Definition env_page2_down : env := env_of web_page2_down.
Definition env_down : env := env_of web_down.
Definition env_spaced : env := env_of web_spaced.

Definition env_incomplete : env :=
  Env environ_incomplete web_up "2025-02-02 08:00:00" None None None mail_ok.

Definition old_post : post :=
  Post "Old deal" "https://www.ozbargain.com.au/node/0" "31/01/2025".

Definition spaced_post : post :=
  Post "Deal S" "https://www.ozbargain.com.au/node/7 " "".

(** A first run: no state file, nothing traced. *)
Definition fresh : world := World [] None [].

(** A later run: the state file holds one post of an earlier listing. *)
Definition later : world := World [] (Some [row_of_post old_post]) [].

End Fixture.

(** ** Further notions and scenarios *)

(** Requests and sleeps, the events that reach the origin server or delay
    the crawl. *)
Definition is_net (ev : event) : bool :=
  match ev with
  | HttpGet _ | Sleep _ => true
  | _ => false
  end.

Definition net (t : list event) : list event := filter (λ ev, is_net ev) t.

(** Requests for [urls] with a one second sleep between two of them and
    nowhere else. *)
Definition paced (urls : list string) : list event :=
  match urls with
  | [] => []
  | url :: rest => HttpGet url :: (rest ≫= λ u, [Sleep 1; HttpGet u])
  end.

(** The mails handed to the mail API. *)
Definition mails (t : list event) : list email :=
  omap (λ ev, match ev with EmailSend params => Some params | _ => None end) t.

(** What one post adds to the body of the alert (lines 189-196). *)
Definition post_block (p : post) : string :=
  nl
  +:+ "        <p>" +:+ nl
  +:+ "            title: " +:+ title p +:+ nl
  +:+ "            date: " +:+ date p +:+ nl
  +:+ "            link: " +:+ link p +:+ nl
  +:+ "        </p>" +:+ nl
  +:+ "        <hr>" +:+ nl
  +:+ "        ".

(** The links a state file of these rows gives rise to. *)
Definition links_of_rows (rows : list row) : gset string :=
  foldl add_seen_link ∅ rows.

(** The line printed after the mail API has answered (lines 209, 211). *)
Definition send_line (r : option string + string) : string :=
  match r with
  | inl id => "Email sent. ID: " +:+ default "None" id
  | inr err => "Error sending email with Resend: " +:+ err
  end.

(** ** The main block, step by step *)

(** The rows the reader yields from a file of [rows]. *)
Definition rows_read (e : env) (rows : list row) : list row :=
  match read_error e with
  | None => rows
  | Some (n, _) => take n rows
  end.

(** The links [load_last_posts] returns from a state file. *)
Definition loaded (e : env) (file : option (list row)) : gset string :=
  match file with
  | None => ∅
  | Some rows => links_of_rows (rows_read e rows)
  end.

Definition read_warning (e : env) (err : string) : string :=
  "Warning: failed to read " +:+ LAST_POSTS_FILE e +:+ ": " +:+ err.

Definition write_warning (e : env) (err : string) : string :=
  "Warning: failed to write " +:+ LAST_POSTS_FILE e +:+ ": " +:+ err.

(** The events of [load_last_posts]. *)
Definition load_events (e : env) (file : option (list row)) : list event :=
  match file with
  | None => [PathExists]
  | Some _ =>
      match read_error e with
      | None => [PathExists; OpenRead]
      | Some (_, err) => [PathExists; OpenRead; Stdout (read_warning e err)]
      end
  end.

(** The state file after [save_current_posts], the directory being there. *)
Definition saved (e : env) (posts : list post) : option (list row) :=
  match write_error e with
  | None => Some (row_of_post <$> posts)
  | Some (_, left_on_disk) => left_on_disk
  end.

(** The events of [save_current_posts], the directory being there. *)
Definition save_events (e : env) : list event :=
  match write_error e with
  | None => [MakeDirs; OpenWrite]
  | Some (err, _) => [MakeDirs; OpenWrite; Stdout (write_warning e err)]
  end.

(** The events of lines 232-236, the API key being set. *)
Definition report_events (e : env) (new_posts : list post) : list event :=
  match new_posts with
  | [] => [Stdout "No new posts since last check."]
  | _ :: _ =>
      [ Stdout (found_line new_posts);
        EmailSend (alert_params e new_posts);
        Stdout (send_line (resend_send e (alert_params e new_posts))) ]
  end.

Module Scenario.

(** A listing page whose next-page anchor carries no href. *)
Definition page_no_href : soup :=
  Soup [ Anchor "Deal A" (Some "/node/1") None ] []
       (Some (Anchor "next" None None)).

Definition web_no_href (url : string) : response := Page page_no_href.

Definition env_no_href : env := Fixture.env_of web_no_href.

(** A listing page whose next-page anchor leads back to the page. *)
Definition page_loop : soup :=
  Soup [ Anchor "Deal A" (Some "/node/1") None ] []
       (Some (Anchor "next" (Some "/deals") None)).

Definition web_loop (url : string) : response := Page page_loop.

Definition env_loop : env := Fixture.env_of web_loop.

(** The primary selector matches one anchor without a title; the looser
    selector would match a usable one. *)
Definition page_primary_unusable : soup :=
  Soup [ Anchor "" (Some "/node/1") None ]
       [ Anchor "Deal A" (Some "/node/1") None ] None.

(** The directory of the state file cannot be created. *)
Definition env_no_dir : env :=
  Env Fixture.environ Fixture.web_up "2025-02-02 08:00:00"
      (Some "[Errno 2] No such file or directory: ''") None None Fixture.mail_ok.

(** The state file cannot be written; what was there stays. *)
Definition env_read_only (left_on_disk : option (list row)) : env :=
  Env Fixture.environ Fixture.web_up "2025-02-02 08:00:00"
      None None (Some ("[Errno 13] Permission denied", left_on_disk)) Fixture.mail_ok.

(** The reader fails after the first row. *)
Definition env_bad_read : env :=
  Env Fixture.environ Fixture.web_up "2025-02-02 08:00:00"
      None (Some (1, "line contains NUL")) None Fixture.mail_ok.

(** The mail API refuses the mail. *)
Definition env_mail_down : env :=
  Env Fixture.environ Fixture.web_up "2025-02-02 08:00:00"
      None None None (λ _, inr "HTTP 401").

(** A state file written by hand: a row without a link column, a row with
    a blank link, a row with a padded link. *)
Definition odd_rows : list row :=
  [ {[ "title" := "no link column" ]};
    <["title" := "blank"]> {[ "link" := "   " ]};
    <["title" := "padded"]> {[ "link" := "  https://www.ozbargain.com.au/node/0 " ]} ].

(** The reader fails at once, the writer fails and the mail API refuses
    the mail; the directory is there. *)
Definition env_all_faults : env :=
  Env Fixture.environ Fixture.web_up "2025-02-02 08:00:00"
      None (Some (0, "line contains NUL"))
      (Some ("[Errno 13] Permission denied", None)) (λ _, inr "HTTP 401").

(** A later run whose state file knows the first post of page 1. *)
Definition knows_deal_a : world :=
  World [] (Some [row_of_post (Post "Deal A" "https://www.ozbargain.com.au/node/1"
                                    "01/02/2025")]) [].

End Scenario.

(** * Basic facts *)

(** ** Running the monad *)

Lemma bind_run {A B} (m : M A) (f : A → M B) (w : world) :
  (m ≫= f) w =
  match m w with
  | (Val a, w') => f a w'
  | (Raise x, w') => (Raise x, w')
  | (OutOfFuel, w') => (OutOfFuel, w')
  end.
Proof. reflexivity. Qed.

Lemma print_run (line : string) (w : world) :
  print line w = (Val (), log [Stdout line] w).
Proof. reflexivity. Qed.

Lemma log_log (t1 t2 : list event) (w : world) :
  log t2 (log t1 w) = log (t1 ++ t2) w.
Proof. unfold log; simpl. by rewrite <- (assoc_L (++)). Qed.

(** ** The entry loop *)

Lemma any_link_elem (l : string) (posts : list post) :
  any_link l posts = true ↔ l ∈ link <$> posts.
Proof.
  unfold any_link. induction posts as [|p posts IH]; simpl.
  - split; [done | by intros ?%elem_of_nil].
  - rewrite orb_true_iff, bool_decide_eq_true, elem_of_cons.
    split; (intros [H|H]; [left; by rewrite H | right; by apply IH]).
Qed.

Lemma scrape_entry_run (a : a_tag) (w : world) :
  scrape_entry a w =
  (Val (), with_posts (match entry_of a with
                       | Some p => append_if_new (all_posts w) p
                       | None => all_posts w
                       end) w).
Proof.
  unfold scrape_entry, append_if_new, with_posts.
  destruct (entry_of a) as [p|]; [|by destruct w].
  rewrite bind_run; simpl.
  destruct (any_link (link p) (all_posts w)); [by destruct w | done].
Qed.

Lemma for_each_scrape_entry (anchors : list a_tag) (w : world) :
  for_each anchors scrape_entry w =
  (Val (), with_posts (merge (all_posts w) (omap entry_of anchors)) w).
Proof.
  revert w. induction anchors as [|a anchors IH]; intros w; simpl.
  - by destruct w.
  - rewrite bind_run, scrape_entry_run, IH. unfold with_posts, merge; simpl.
    by destruct (entry_of a).
Qed.

(** One unfolding of [scrape_page], with the loop replaced by [merge]. *)
Lemma scrape_page_S (e : env) (fuel : nat) (url : string) (w : world) :
  scrape_page e (S fuel) url w =
  let w1 := log [Stdout ("Scraping page: " +:+ url); HttpGet url] w in
  match web e url with
  | RequestException err =>
      (Val (all_posts w),
       log [Stdout ("Error fetching URL " +:+ url +:+ ": " +:+ err)] w1)
  | Page s =>
      let w2 := with_posts (merge (all_posts w) (page_entries s)) w1 in
      match select_one_next s with
      | None => (Val (all_posts w2), w2)
      | Some tag =>
          match get_href tag with
          | None => (Raise TypeError, w2)
          | Some href =>
              match scrape_page e fuel (BASE_URL +:+ href) (log [Sleep 1] w2) with
              | (Val _, w3) => (Val (all_posts w3), w3)
              | (Raise x, w3) => (Raise x, w3)
              | (OutOfFuel, w3) => (OutOfFuel, w3)
              end
          end
      end
  end.
Proof.
  destruct w as [ps sf tr].
  cbn [scrape_page].
  unfold mbind, M_bind, mret, M_ret, print, sleep, emit, requests_get, get_all_posts,
    base_url_plus, raise, log.
  simpl. destruct (web e url) as [err|s]; simpl.
  { by rewrite <- !(assoc_L (++)). }
  rewrite for_each_scrape_entry. fold (page_entries s).
  unfold with_posts; simpl. rewrite <- !(assoc_L (++)); simpl.
  destruct (select_one_next s) as [tag|]; [|done].
  destruct (get_href tag) as [href|]; [|done].
  simpl. rewrite <- !(assoc_L (++)); simpl.
  match goal with |- context [scrape_page e fuel ?u ?w'] =>
    destruct (scrape_page e fuel u w') as [[v|x|] w3] end; done.
Qed.

(** ** Merging is first-wins deduplication *)

Lemma merge_app (posts es1 es2 : list post) :
  merge posts (es1 ++ es2) = merge (merge posts es1) es2.
Proof. apply foldl_app. Qed.

Lemma merge_first_wins_from (posts entries : list post) :
  merge posts entries =
  posts ++ first_wins_from (list_to_set (link <$> posts)) entries.
Proof.
  revert posts. induction entries as [|p es IH]; intros posts; simpl.
  - by rewrite app_nil_r.
  - unfold merge in *; simpl. unfold append_if_new at 2.
    destruct (any_link (link p) posts) eqn:Hany.
    + apply any_link_elem in Hany.
      rewrite bool_decide_eq_true_2 by (by apply elem_of_list_to_set).
      apply IH.
    + rewrite bool_decide_eq_false_2.
      * rewrite IH, <- (assoc_L (++)); simpl. do 3 f_equal.
        rewrite fmap_app, list_to_set_app_L; simpl. set_solver.
      * rewrite elem_of_list_to_set, <- any_link_elem. by rewrite Hany.
Qed.

Lemma merge_nil_first_wins (entries : list post) :
  merge [] entries = first_wins entries.
Proof. by rewrite merge_first_wins_from. Qed.

Lemma first_wins_from_sublist (seen : gset string) (entries : list post) :
  first_wins_from seen entries `sublist_of` entries.
Proof.
  revert seen. induction entries as [|p es IH]; intros seen; simpl; [done|].
  case_bool_decide; [by apply sublist_cons | by apply sublist_skip].
Qed.

Lemma first_wins_from_fresh (seen : gset string) (entries : list post) (p : post) :
  p ∈ first_wins_from seen entries → link p ∉ seen.
Proof.
  revert seen. induction entries as [|q es IH]; intros seen; simpl.
  - by intros ?%elem_of_nil.
  - case_bool_decide as Hq; [by apply IH|].
    intros [->|Hin]%elem_of_cons; [done|].
    apply IH in Hin. set_solver.
Qed.

Lemma first_wins_from_distinct (seen : gset string) (entries : list post) :
  distinct_links (first_wins_from seen entries).
Proof.
  unfold distinct_links. revert seen.
  induction entries as [|p es IH]; intros seen; simpl; [constructor|].
  case_bool_decide as Hp; [apply IH|].
  rewrite fmap_cons. constructor; [|apply IH].
  intros (q & Hq & Hin%first_wins_from_fresh)%list_elem_of_fmap.
  set_solver.
Qed.

(** For every link, the records kept with that link: none when the link
    was seen before or never offered, else just the first entry offering
    it. *)
Lemma first_wins_from_filter (seen : gset string) (entries : list post) (l : string) :
  filter (λ x, link x = l) (first_wins_from seen entries) =
  match list_find (λ x, link x = l) entries with
  | Some (_, q) => if bool_decide (l ∈ seen) then [] else [q]
  | None => []
  end.
Proof.
  revert seen. induction entries as [|p es IH]; intros seen; simpl; [done|].
  case_bool_decide as Hp.
  - rewrite IH. case_decide as Hl; simpl.
    + subst l. rewrite bool_decide_eq_true_2 by done.
      by destruct (list_find _ es) as [[]|].
    + by destruct (list_find _ es) as [[]|].
  - rewrite filter_cons. case_decide as Hl; simpl.
    + subst l. rewrite IH, bool_decide_eq_true_2 by set_solver.
      rewrite bool_decide_eq_false_2 by done.
      by destruct (list_find _ es) as [[]|].
    + rewrite IH. destruct (list_find _ es) as [[]|]; simpl; [|done].
      by rewrite (bool_decide_ext (l ∈ {[link p]} ∪ seen) (l ∈ seen)) by set_solver.
Qed.

Lemma list_find_elem (entries : list post) (p : post) :
  p ∈ entries → ∃ i q, list_find (λ x, link x = link p) entries = Some (i, q).
Proof.
  intros Hin.
  destruct (list_find (λ x, link x = link p) entries) as [[i q]|] eqn:Hfind; [eauto|].
  rewrite list_find_None, Forall_forall in Hfind. by destruct (Hfind p Hin).
Qed.

(** ** What a crawl does to the world *)

Lemma requested_app (t1 t2 : list event) :
  requested (t1 ++ t2) = requested t1 ++ requested t2.
Proof. apply omap_app. Qed.

Lemma discovered_app (e : env) (t1 t2 : list event) :
  discovered e (t1 ++ t2) = discovered e t1 ++ discovered e t2.
Proof. unfold discovered, answered. by rewrite requested_app, omap_app, bind_app. Qed.

(** Whatever the fuel and however the call ends, [scrape_page] only prints,
    requests and sleeps; it leaves the state file alone; the list is the
    one it was given with the entries it came across merged in; and the
    value returned, if any, is that list. *)
Lemma scrape_page_effect (e : env) (fuel : nat) (url : string) (w : world) :
  ∃ t,
    (scrape_page e fuel url w).2 =
      World (merge (all_posts w) (discovered e t)) (state_file w) (trace w ++ t) ∧
    Forall crawl_event t ∧
    match (scrape_page e fuel url w).1 with
    | Val v => v = merge (all_posts w) (discovered e t)
    | Raise x => x = TypeError
    | OutOfFuel => True
    end.
Proof.
  revert url w. induction fuel as [|fuel IH]; intros url w.
  - exists []. destruct w; simpl. by rewrite app_nil_r.
  - rewrite scrape_page_S. cbv zeta.
    destruct (web e url) as [err|s] eqn:Hweb.
    + exists [Stdout ("Scraping page: " +:+ url); HttpGet url;
              Stdout ("Error fetching URL " +:+ url +:+ ": " +:+ err)].
      unfold discovered, answered; simpl. rewrite Hweb; simpl.
      split_and!; [|repeat constructor|done].
      unfold log; simpl. by rewrite <- (assoc_L (++)).
    + assert (Hd : discovered e [Stdout ("Scraping page: " +:+ url); HttpGet url]
                   = page_entries s).
      { unfold discovered, answered; simpl. rewrite Hweb; simpl. apply app_nil_r. }
      destruct (select_one_next s) as [tag|].
      2:{ exists [Stdout ("Scraping page: " +:+ url); HttpGet url].
          rewrite Hd. split_and!; [done|repeat constructor|done]. }
      destruct (get_href tag) as [href|].
      2:{ exists [Stdout ("Scraping page: " +:+ url); HttpGet url].
          rewrite Hd. split_and!; [done|repeat constructor|done]. }
      match goal with |- context [scrape_page e fuel ?u ?w'] =>
        destruct (IH u w') as (t & Hw & Ht & Hr);
        destruct (scrape_page e fuel u w') as [r w3] end.
      simpl in Hw, Hr. subst w3.
      exists ([Stdout ("Scraping page: " +:+ url); HttpGet url] ++ [Sleep 1] ++ t).
      rewrite !discovered_app, Hd, merge_app.
      assert (discovered e [Sleep 1] = []) as -> by done. simpl.
      rewrite <- !(assoc_L (++)); simpl.
      split_and!.
      * by destruct r.
      * by repeat constructor.
      * by destruct r.
Qed.

Lemma scrape_all_pages_run (e : env) (fuel : nat) (url : string) (w : world) :
  scrape_all_pages e fuel url w = scrape_page e fuel url (with_posts [] w).
Proof. reflexivity. Qed.

(** The crawl as a whole: the list starts empty, so it ends as the
    first-wins deduplication of the entries come across. *)
Lemma scrape_all_pages_effect (e : env) (fuel : nat) (url : string) (w : world) :
  ∃ t,
    (scrape_all_pages e fuel url w).2 =
      World (first_wins (discovered e t)) (state_file w) (trace w ++ t) ∧
    Forall crawl_event t ∧
    match (scrape_all_pages e fuel url w).1 with
    | Val v => v = first_wins (discovered e t)
    | Raise x => x = TypeError
    | OutOfFuel => True
    end.
Proof.
  rewrite scrape_all_pages_run.
  destruct (scrape_page_effect e fuel url (with_posts [] w)) as (t & Hw & Ht & Hr).
  exists t. simpl in Hw, Hr. rewrite merge_nil_first_wins in Hw, Hr. done.
Qed.

(** ** Prefixes *)

Lemma startswith_slash (s : string) :
  startswith s "/" = true ↔ ∃ rest, s = "/" +:+ rest.
Proof.
  unfold startswith. destruct s as [|c s]; cbn [String.prefix].
  - split; [done | by intros [rest ?]].
  - match goal with |- context [Ascii.ascii_dec ?a c] =>
      destruct (Ascii.ascii_dec a c) as [<-|Hne] end.
    + split; [by exists s | by destruct s].
    + split; [done | intros [rest [= ? ?]]; by subst].
Qed.

(** * The delta *)

Lemma check_for_new_posts_filter (C : list post) (S : gset string) :
  check_for_new_posts C S = filter (λ p, link p ∉ S) C.
Proof.
  induction C as [|p C IH]; simpl; [done|].
  rewrite filter_cons, IH. case_bool_decide; case_decide; done.
Qed.

Lemma check_for_new_posts_all_seen (C : list post) (S : gset string) :
  list_to_set (link <$> C) ⊆ S → check_for_new_posts C S = [].
Proof.
  revert S. induction C as [|p C IH]; intros S Hsub; simpl; [done|].
  rewrite bool_decide_eq_true_2 by set_solver. apply IH. set_solver.
Qed.

(** C1 — [check_for_new_posts C S] is exactly the records of [C] whose link
    is not in [S], in the order of [C]: it is a subsequence of [C], it holds
    a record just when [C] does and the link is not in [S], every
    subsequence of [C] made of such records is a subsequence of it, and it
    is the filter of [C] by non-membership of the link.  Against the empty
    set it is [C]; against the set of all links of [C] it is empty. *)
Theorem check_for_new_posts_exact (C : list post) (S : gset string) :
  check_for_new_posts C S `sublist_of` C ∧
  (∀ p, p ∈ check_for_new_posts C S ↔ p ∈ C ∧ link p ∉ S) ∧
  (∀ l, l `sublist_of` C → Forall (λ p, link p ∉ S) l →
        l `sublist_of` check_for_new_posts C S) ∧
  check_for_new_posts C S = filter (λ p, link p ∉ S) C ∧
  check_for_new_posts C ∅ = C ∧
  check_for_new_posts C (list_to_set (link <$> C)) = [].
Proof.
  split_and!.
  - induction C as [|p C IH]; simpl; [done|].
    case_bool_decide; [by apply sublist_cons | by apply sublist_skip].
  - intros p. rewrite check_for_new_posts_filter, list_elem_of_filter. tauto.
  - intros l Hsub. induction Hsub as [|x l C' Hsub IH|x l C' Hsub IH]; intros Hall.
    + apply sublist_nil_l.
    + apply Forall_cons in Hall as [Hx Hall]. simpl.
      rewrite bool_decide_eq_false_2 by done. apply sublist_skip. by apply IH.
    + simpl. case_bool_decide; [by apply IH | apply sublist_cons; by apply IH].
  - apply check_for_new_posts_filter.
  - induction C as [|p C IH]; simpl; [done|].
    rewrite bool_decide_eq_false_2 by set_solver. by rewrite IH.
  - by apply check_for_new_posts_all_seen.
Qed.

(** * Link resolution *)

(** C7 — the link of the record an anchor yields: the anchor has a
    non-empty href; when the href starts with "/", the link is the base URL
    followed by the href; otherwise the link is the href unchanged. *)
Theorem entry_link_resolution (a : a_tag) (p : post) :
  entry_of a = Some p →
  ∃ href,
    get_href a = Some href ∧ href ≠ "" ∧
    ((∃ rest, href = "/" +:+ rest) → link p = BASE_URL +:+ href) ∧
    ((∀ rest, href ≠ "/" +:+ rest) → link p = href).
Proof.
  unfold entry_of. destruct (get_href a) as [href|]; simpl; [|done].
  case_bool_decide as Hhref; simpl; [done|].
  case_bool_decide; simpl; [done|]. intros [= <-]; simpl.
  exists href. split_and!; [done|done|..]; unfold link_full_of.
  - intros Hslash%startswith_slash. by rewrite Hslash.
  - intros Hno. destruct (startswith href "/") eqn:Hs; [|done].
    apply startswith_slash in Hs as [rest ->]. by destruct (Hno rest).
Qed.

Lemma entry_link_resolution_witness :
  link (Post "Half price" (link_full_of "/deals/123") "today")
  = "https://www.ozbargain.com.au/deals/123".
Proof.
  destruct (entry_link_resolution
              (Anchor "Half price" (Some "/deals/123")
                      (Some (DT (Some (DD (Some "today"))))))
              (Post "Half price" (link_full_of "/deals/123") "today")
              eq_refl)
    as (href & [= <-] & _ & Hrel & _).
  rewrite Hrel by (by exists "deals/123"). reflexivity.
Defined.

Example link_full_of_relative :
  link_full_of "/deals/123" = BASE_URL +:+ "/deals/123".
Proof. reflexivity. Qed.

Example link_full_of_absolute :
  link_full_of "https://external.example/x" = "https://external.example/x".
Proof. reflexivity. Qed.

(** * Deduplication within a crawl *)

Lemma append_if_new_distinct (posts : list post) (p : post) :
  distinct_links posts → distinct_links (append_if_new posts p).
Proof.
  unfold distinct_links, append_if_new. intros Hnd.
  destruct (any_link (link p) posts) eqn:Hany; [done|].
  rewrite fmap_app. apply NoDup_app. split_and!; [done| |apply NoDup_singleton].
  intros l Hl ->%list_elem_of_singleton.
  apply any_link_elem in Hl. congruence.
Qed.

(** C2 — at most one record per link, at every point of a crawl: one turn
    of the entry loop keeps the links of the list distinct, and however far
    the crawl got (whatever the fuel, however it ended) the list has
    distinct links, is the first-wins deduplication of the entries the
    crawl came across, and is what is returned.  For every entry the crawl came
    across, the list holds exactly one record with that link, and it is the
    first entry with that link in page order then document order: title and
    date are those of the first occurrence. *)
Theorem crawl_links_distinct (e : env) (fuel : nat) (url : string) (w : world)
    (t : list event) :
  trace (scrape_all_pages e fuel url w).2 = trace w ++ t →
  let posts := all_posts (scrape_all_pages e fuel url w).2 in
  (∀ a w0, distinct_links (all_posts w0) →
           distinct_links (all_posts (scrape_entry a w0).2)) ∧
  distinct_links posts ∧
  posts = first_wins (discovered e t) ∧
  (∀ v, (scrape_all_pages e fuel url w).1 = Val v → v = posts) ∧
  (∀ p, p ∈ discovered e t →
        ∃ i q, list_find (λ x, link x = link p) (discovered e t) = Some (i, q) ∧
               filter (λ x, link x = link p) posts = [q]).
Proof.
  intros Htrace.
  destruct (scrape_all_pages_effect e fuel url w) as (t' & Hw & _ & Hr).
  rewrite Hw in Htrace; simpl in Htrace. apply app_inv_head in Htrace as ->.
  rewrite Hw; simpl. split_and!.
  - intros a w0 Hnd. rewrite scrape_entry_run; simpl.
    destruct (entry_of a); [by apply append_if_new_distinct | done].
  - apply first_wins_from_distinct.
  - done.
  - intros v Hv. by rewrite Hv in Hr.
  - intros p Hp. destruct (list_find_elem _ _ Hp) as (i & q & Hfind).
    exists i, q. split; [done|].
    unfold first_wins. rewrite first_wins_from_filter, Hfind.
    by rewrite bool_decide_eq_false_2 by set_solver.
Qed.

Lemma crawl_links_distinct_witness :
  filter (λ x, link x = "https://www.ozbargain.com.au/node/1")
         (all_posts (scrape_all_pages Fixture.env_up 5 Fixture.url1 Fixture.fresh).2)
  = [Post "Deal A" "https://www.ozbargain.com.au/node/1" "01/02/2025"].
Proof.
  destruct (crawl_links_distinct Fixture.env_up 5 Fixture.url1 Fixture.fresh
              (chain_trace Fixture.pages) eq_refl)
    as (_ & _ & _ & _ & Hfirst).
  destruct (Hfirst (Post "Deal A (repost)" "https://www.ozbargain.com.au/node/1"
                         "02/02/2025"))
    as (i & q & Hfind & Hfilter).
  - vm_compute. do 2 apply list_elem_of_further. apply list_elem_of_here.
  - vm_compute in Hfind. injection Hfind as _ <-. exact Hfilter.
Defined.

(** * Pagination *)

Lemma chain_entries_cons (u : string) (s : soup) (rest : list (string * soup)) :
  chain_entries ((u, s) :: rest) = page_entries s ++ chain_entries rest.
Proof. reflexivity. Qed.

Lemma requested_chain_trace (pages : list (string * soup)) :
  requested (chain_trace pages) = pages.*1.
Proof.
  induction pages as [|[u s] rest IH]; [done|].
  destruct rest as [|p rest]; [done|].
  change (requested (chain_trace ((u, s) :: p :: rest)))
    with (u :: requested (chain_trace (p :: rest))).
  by rewrite IH.
Qed.

Lemma requested_broken_trace (pages : list (string * soup)) (bad err : string) :
  requested (broken_trace pages bad err) = pages.*1 ++ [bad].
Proof.
  induction pages as [|[u s] rest IH]; [done|].
  cbn [broken_trace]. rewrite requested_app, IH. done.
Qed.

(** Along a chain, with fuel for every page, [scrape_page] returns. *)
Lemma scrape_page_chain (e : env) (pages : list (string * soup)) :
  ∀ (url : string) (fuel : nat) (w : world),
    chain e url pages → length pages ≤ fuel →
    scrape_page e fuel url w =
    (Val (merge (all_posts w) (chain_entries pages)),
     World (merge (all_posts w) (chain_entries pages)) (state_file w)
           (trace w ++ chain_trace pages)).
Proof.
  induction pages as [|[u s] rest IH]; intros url fuel w Hchain Hfuel; [done|].
  destruct fuel as [|fuel]; [simpl in Hfuel; lia|].
  destruct Hchain as (-> & Hweb & Hnext).
  rewrite scrape_page_S, Hweb. cbv zeta.
  rewrite chain_entries_cons, merge_app.
  destruct rest as [|p rest].
  - rewrite Hnext. unfold chain_entries; simpl. done.
  - destruct Hnext as (tag & href & -> & -> & Hchain).
    rewrite (IH _ fuel _ Hchain) by (simpl in *; lia).
    cbn [all_posts state_file trace log with_posts chain_trace].
    by rewrite <- !(assoc_L (++)).
Qed.

(** Along a chain that breaks, with fuel for every request, [scrape_page]
    returns what it had when the request failed. *)
Lemma scrape_page_broken_chain (e : env) (pages : list (string * soup))
    (bad err : string) :
  ∀ (url : string) (fuel : nat) (w : world),
    broken_chain e url pages bad err → length pages < fuel →
    scrape_page e fuel url w =
    (Val (merge (all_posts w) (chain_entries pages)),
     World (merge (all_posts w) (chain_entries pages)) (state_file w)
           (trace w ++ broken_trace pages bad err)).
Proof.
  induction pages as [|[u s] rest IH]; intros url fuel w Hchain Hfuel.
  - destruct fuel as [|fuel]; [simpl in Hfuel; lia|].
    destruct Hchain as [-> Hweb]. rewrite scrape_page_S, Hweb. cbv zeta.
    unfold log; simpl. by rewrite <- !(assoc_L (++)).
  - destruct fuel as [|fuel]; [simpl in Hfuel; lia|].
    destruct Hchain as (-> & Hweb & tag & href & Hnext & Hhref & Hchain).
    rewrite scrape_page_S, Hweb. cbv zeta. rewrite Hnext, Hhref.
    rewrite (IH _ fuel _ Hchain) by (simpl in *; lia).
    rewrite chain_entries_cons, merge_app.
    cbn [all_posts state_file trace log with_posts broken_trace].
    by rewrite <- !(assoc_L (++)).
Qed.

(** C5 — along a finite chain of pages, with fuel for every page, the
    crawl returns; it requests exactly the URLs of the chain, in order, the
    last request being the one for the last page, sleeping once between two
    requests and at no other time; and it returns the first-wins
    deduplication of the entries of all pages, in page order then document
    order. *)
Theorem crawl_chain_terminates (e : env) (url : string) (pages : list (string * soup))
    (fuel : nat) (w : world) :
  chain e url pages → length pages ≤ fuel →
  scrape_all_pages e fuel url w =
    (Val (first_wins (chain_entries pages)),
     World (first_wins (chain_entries pages)) (state_file w)
           (trace w ++ chain_trace pages)) ∧
  requested (chain_trace pages) = pages.*1 ∧
  answered e pages.*1 = pages.*2 ∧
  first_wins (chain_entries pages) `sublist_of` chain_entries pages.
Proof.
  intros Hchain Hfuel. split_and!.
  - rewrite scrape_all_pages_run.
    rewrite (scrape_page_chain e pages url fuel _ Hchain Hfuel).
    simpl. by rewrite merge_nil_first_wins.
  - apply requested_chain_trace.
  - clear Hfuel. revert url Hchain.
    induction pages as [|[u s] rest IH]; intros url Hchain; [done|].
    destruct Hchain as (-> & Hweb & Hnext).
    unfold answered in *. simpl. rewrite Hweb. f_equal.
    destruct rest as [|p rest]; [done|].
    destruct Hnext as (tag & href & _ & _ & Hchain). by apply (IH _ Hchain).
  - apply first_wins_from_sublist.
Qed.

Lemma chain_fixture : chain Fixture.env_up Fixture.url1 Fixture.pages.
Proof.
  simpl. split_and!; try done.
  eexists _, _. split_and!; try done.
  eexists _, _. split_and!; done.
Qed.

Lemma crawl_chain_terminates_witness :
  (scrape_all_pages Fixture.env_up 3 Fixture.url1 Fixture.fresh).1
  = Val [ Post "Deal A" "https://www.ozbargain.com.au/node/1" "01/02/2025";
          Post "Deal B" "https://external.example/x" "";
          Post "Deal C" "https://www.ozbargain.com.au/node/3" "02/02/2025";
          Post "Deal D" "https://www.ozbargain.com.au/node/4" "" ]
  ∧ requested (trace (scrape_all_pages Fixture.env_up 3 Fixture.url1 Fixture.fresh).2)
    = [Fixture.url1; Fixture.url2; Fixture.url3].
Proof.
  destruct (crawl_chain_terminates Fixture.env_up Fixture.url1 Fixture.pages 3
              Fixture.fresh chain_fixture (le_n 3)) as (Hrun & _).
  rewrite Hrun. split; reflexivity.
Defined.

Lemma string_length_app (s1 s2 : string) :
  String.length (s1 +:+ s2) = String.length s1 + String.length s2.
Proof. induction s1 as [|c s1 IH]; simpl; [done | by rewrite IH]. Qed.

Lemma base_url_plus_changes (href : string) : BASE_URL +:+ href ≠ href.
Proof.
  intros Heq. apply (f_equal String.length) in Heq.
  rewrite string_length_app in Heq. simpl in Heq. lia.
Qed.

(** A call with fuel left starts by requesting its URL. *)
Lemma scrape_page_first_request (e : env) (fuel : nat) (url : string) (w : world) :
  ∃ rest,
    requested (trace (scrape_page e (S fuel) url w).2)
    = requested (trace w) ++ url :: rest.
Proof.
  rewrite scrape_page_S. cbv zeta.
  destruct (web e url) as [err|s].
  { exists []. unfold requested; simpl. rewrite !omap_app; simpl. by rewrite app_nil_r. }
  destruct (select_one_next s) as [tag|].
  2:{ exists []. unfold requested; simpl. by rewrite !omap_app. }
  destruct (get_href tag) as [href|].
  2:{ exists []. unfold requested; simpl. by rewrite !omap_app. }
  match goal with |- context [scrape_page e fuel ?u ?w'] =>
    destruct (scrape_page_effect e fuel u w') as (t & Hw & _);
    destruct (scrape_page e fuel u w') as [r w3] end.
  simpl in Hw. subst w3. exists (requested t).
  assert (∀ r' w', (match r' with
                    | Val _ => (Val (all_posts w'), w')
                    | Raise x => (Raise x, w')
                    | OutOfFuel => (OutOfFuel, w')
                    end : res (list post) * world).2 = w') as -> by (by intros []).
  unfold requested; simpl. rewrite !omap_app; simpl. by rewrite <- !(assoc_L (++)).
Qed.

(** C9 — when the page answered for [url] has a next-page anchor, the
    request made right after the one for [url] is for the base URL followed
    by the anchor's href, whatever the href: the result always differs from
    the href, also for an href that does not start with "/", which as an
    entry link would have been kept as it is. *)
Theorem next_page_url_prefixed (e : env) (fuel : nat) (url : string) (w : world)
    (s : soup) (tag : a_tag) (href : string) :
  web e url = Page s →
  select_one_next s = Some tag →
  get_href tag = Some href →
  (∃ rest,
     requested (trace (scrape_page e (S (S fuel)) url w).2)
     = requested (trace w) ++ url :: (BASE_URL +:+ href) :: rest) ∧
  BASE_URL +:+ href ≠ href ∧
  (startswith href "/" = false → link_full_of href = href).
Proof.
  intros Hweb Hnext Hhref. split_and!.
  - rewrite scrape_page_S, Hweb. cbv zeta. rewrite Hnext, Hhref.
    match goal with |- context [scrape_page e (S fuel) ?u ?w'] =>
      destruct (scrape_page_first_request e fuel u w') as (rest & Hreq);
      destruct (scrape_page e (S fuel) u w') as [r w3] end.
    exists rest. simpl in Hreq.
    assert (∀ r' w', (match r' with
                      | Val _ => (Val (all_posts w'), w')
                      | Raise x => (Raise x, w')
                      | OutOfFuel => (OutOfFuel, w')
                      end : res (list post) * world).2 = w') as -> by (by intros []).
    rewrite Hreq. unfold requested; simpl. rewrite !omap_app; simpl.
    by rewrite <- !(assoc_L (++)).
  - apply base_url_plus_changes.
  - unfold link_full_of. by intros ->.
Qed.

Lemma next_page_url_prefixed_witness :
  ∃ rest,
    requested (trace (scrape_page Fixture.env_up 2 Fixture.url1 Fixture.fresh).2)
    = [] ++ Fixture.url1 :: (BASE_URL +:+ "/deals?page=1") :: rest.
Proof.
  exact (proj1 (next_page_url_prefixed Fixture.env_up 0 Fixture.url1 Fixture.fresh
                  Fixture.page1 (Anchor "next" (Some "/deals?page=1") None)
                  "/deals?page=1" eq_refl eq_refl eq_refl)).
Defined.

(** A next-page anchor without an href: line 113 raises [TypeError], which
    no handler catches. *)
Example next_page_without_href :
  let s := Soup [] [] (Some (Anchor "next" None None)) in
  let e := Fixture.env_of (λ url, Page s) in
  (scrape_all_pages e 2 Fixture.url1 Fixture.fresh).1 = Raise TypeError
  ∧ exit_status (main e 2 Fixture.fresh).1 = Some 1%Z.
Proof. split; reflexivity. Qed.

(** An absolute href in the next-page anchor: the request goes to the base
    URL followed by the whole of it. *)
Example next_page_absolute_href :
  let s := Soup [] [] (Fixture.next "https://www.ozbargain.com.au/deals?page=1") in
  let e := Fixture.env_of (λ url, if bool_decide (url = Fixture.url1) then Page s
                                  else RequestException "404 Client Error") in
  requested (trace (scrape_page e 2 Fixture.url1 Fixture.fresh).2)
  = [ Fixture.url1;
      "https://www.ozbargain.com.auhttps://www.ozbargain.com.au/deals?page=1" ]
  ∧ link_full_of "https://www.ozbargain.com.au/deals?page=1"
    = "https://www.ozbargain.com.au/deals?page=1".
Proof. split; reflexivity. Qed.

(** * The state file and the main block *)

Lemma load_last_posts_run (e : env) (w : world) :
  load_last_posts e w =
  match state_file w with
  | None => (Val ∅, log [PathExists] w)
  | Some rows =>
      match read_error e with
      | None => (Val (foldl add_seen_link ∅ rows), log [PathExists; OpenRead] w)
      | Some (n, err) =>
          (Val (foldl add_seen_link ∅ (take n rows)),
           log [PathExists; OpenRead;
                Stdout ("Warning: failed to read " +:+ LAST_POSTS_FILE e +:+ ": " +:+ err)]
               w)
      end
  end.
Proof.
  destruct w as [ps sf tr].
  unfold load_last_posts, os_path_exists, read_rows, print, emit, log,
    mbind, M_bind, mret, M_ret; simpl.
  destruct sf as [rows|]; simpl; [|done].
  destruct (read_error e) as [[n err]|]; simpl; by rewrite <- !(assoc_L (++)).
Qed.

Lemma save_current_posts_run (e : env) (posts : list post) (w : world) :
  makedirs_error e = None →
  save_current_posts e posts w =
  match write_error e with
  | None =>
      (Val (), World (all_posts w) (Some (row_of_post <$> posts))
                     (trace w ++ [MakeDirs; OpenWrite]))
  | Some (err, left_on_disk) =>
      (Val (), World (all_posts w) left_on_disk
                     (trace w ++ [MakeDirs; OpenWrite;
                                  Stdout ("Warning: failed to write "
                                          +:+ LAST_POSTS_FILE e +:+ ": " +:+ err)]))
  end.
Proof.
  intros Hmk. destruct w as [ps sf tr].
  unfold save_current_posts, os_makedirs, write_rows, print, emit,
    mbind, M_bind, mret, M_ret; simpl. rewrite Hmk; simpl.
  destruct (write_error e) as [[err left_on_disk]|]; simpl;
    by rewrite <- !(assoc_L (++)).
Qed.

Lemma send_alert_email_run (e : env) (new_posts : list post) (w : world) :
  ∃ t, send_alert_email e new_posts w = (Val (), log t w).
Proof.
  destruct w as [ps sf tr].
  unfold send_alert_email, resend_emails_send, print, emit, log,
    mbind, M_bind; simpl.
  case_bool_decide; [by eexists [_]|].
  destruct (resend_send e _) as [id|err]; simpl; eexists [_; _];
    by rewrite <- !(assoc_L (++)).
Qed.

(** The two branches of line 224. *)
Lemma main_empty (e : env) (fuel : nat) (w w1 : world) :
  scrape_all_pages e fuel (URL e) (log [Stdout (banner e)] w) = (Val [], w1) →
  main e fuel w = (Val (), log [Stdout "No posts found or scraping failed. Exiting."] w1).
Proof.
  intros Hcrawl. unfold main. rewrite bind_run, print_run, bind_run, Hcrawl.
  apply print_run.
Qed.

Lemma main_nonempty (e : env) (fuel : nat) (w w1 : world) (posts : list post) :
  scrape_all_pages e fuel (URL e) (log [Stdout (banner e)] w) = (Val posts, w1) →
  posts ≠ [] →
  main e fuel w =
  (last_post_links ← load_last_posts e;
   save_current_posts e posts;;
   report e (check_for_new_posts posts last_post_links)) w1.
Proof.
  intros Hcrawl Hne. unfold main. rewrite bind_run, print_run, bind_run, Hcrawl.
  by destruct posts.
Qed.

Lemma report_run (e : env) (new_posts : list post) (w : world) :
  ∃ t, report e new_posts w = (Val (), log t w).
Proof.
  destruct new_posts as [|p ps]; [by eexists [_]|].
  unfold report. rewrite bind_run, print_run.
  destruct (send_alert_email_run e (p :: ps) (log [Stdout (found_line (p :: ps))] w))
    as (t & ->).
  eexists. by rewrite log_log.
Qed.

Global Instance row_of_post_inj : Inj (=) (=) row_of_post.
Proof.
  intros [t1 l1 d1] [t2 l2 d2] Heq.
  assert (row_of_post (Post t1 l1 d1) !! "title" = row_of_post (Post t2 l2 d2) !! "title")
    as Ht by (by rewrite Heq).
  assert (row_of_post (Post t1 l1 d1) !! "link" = row_of_post (Post t2 l2 d2) !! "link")
    as Hl by (by rewrite Heq).
  assert (row_of_post (Post t1 l1 d1) !! "date" = row_of_post (Post t2 l2 d2) !! "date")
    as Hd by (by rewrite Heq).
  unfold row_of_post in Ht, Hl, Hd; simpl in Ht, Hl, Hd.
  rewrite !lookup_insert_eq in Ht.
  rewrite !(lookup_insert_ne _ "title" "link"), !lookup_insert_eq in Hl by done.
  rewrite !(lookup_insert_ne _ "title" "date"), !(lookup_insert_ne _ "link" "date"),
    !lookup_insert_eq in Hd by done.
  congruence.
Qed.

Lemma load_last_posts_total (e : env) (w : world) :
  ∃ seen t, load_last_posts e w = (Val seen, log t w).
Proof.
  rewrite load_last_posts_run.
  destruct (state_file w); [destruct (read_error e) as [[]|]|]; eauto.
Qed.

(** * Persistence *)

(** C3, as the code has it — after a run whose crawl returned a non-empty
    collection, with the directory in place and the write going through,
    the run ends normally and the state file holds exactly the rows of the
    full current-run collection, whether or not any post was new and
    whatever the file held before; the rows determine the collection. *)
Theorem snapshot_persisted (e : env) (fuel : nat) (w w1 : world) (posts : list post) :
  scrape_all_pages e fuel (URL e) (log [Stdout (banner e)] w) = (Val posts, w1) →
  posts ≠ [] →
  makedirs_error e = None →
  write_error e = None →
  ∃ w2,
    main e fuel w = (Val (), w2) ∧
    state_file w2 = Some (row_of_post <$> posts) ∧
    (∀ posts', row_of_post <$> posts' = row_of_post <$> posts → posts' = posts).
Proof.
  intros Hcrawl Hne Hmk Hwr.
  rewrite (main_nonempty e fuel w w1 posts Hcrawl Hne).
  rewrite bind_run.
  destruct (load_last_posts_total e w1) as (seen & t & ->).
  rewrite bind_run, (save_current_posts_run e posts _ Hmk), Hwr.
  match goal with |- context [report e ?n ?w'] =>
    destruct (report_run e n w') as (t' & ->) end.
  eexists. split_and!; [done|done|].
  intros posts'. apply (inj (fmap row_of_post)).
Qed.

Lemma crawl_fixture_up :
  scrape_all_pages Fixture.env_up 3 (URL Fixture.env_up)
                   (log [Stdout (banner Fixture.env_up)] Fixture.later)
  = (Val (first_wins (chain_entries Fixture.pages)),
     World (first_wins (chain_entries Fixture.pages)) (state_file Fixture.later)
           (trace Fixture.later ++ [Stdout (banner Fixture.env_up)]
            ++ chain_trace Fixture.pages)).
Proof. reflexivity. Qed.

Lemma snapshot_persisted_witness :
  (main Fixture.env_up 3 Fixture.later).1 = Val () ∧
  state_file (main Fixture.env_up 3 Fixture.later).2
  = Some (row_of_post <$>
            [ Post "Deal A" "https://www.ozbargain.com.au/node/1" "01/02/2025";
              Post "Deal B" "https://external.example/x" "";
              Post "Deal C" "https://www.ozbargain.com.au/node/3" "02/02/2025";
              Post "Deal D" "https://www.ozbargain.com.au/node/4" "" ]).
Proof.
  destruct (snapshot_persisted Fixture.env_up 3 Fixture.later _ _ crawl_fixture_up)
    as (w2 & Hmain & Hfile & _); [by vm_compute | reflexivity | reflexivity |].
  rewrite Hmain. split; [done | exact Hfile].
Defined.

(** Against C3 as stated: the crawl returns the empty collection, the run
    ends with status 0, and the state file still holds the row of the
    earlier run instead of the (empty) current-run collection. *)
Lemma snapshot_not_for_empty :
  (scrape_all_pages Fixture.env_down 1 (URL Fixture.env_down)
     (log [Stdout (banner Fixture.env_down)] Fixture.later)).1 = Val [] ∧
  exit_status (main Fixture.env_down 1 Fixture.later).1 = Some 0%Z ∧
  state_file (main Fixture.env_down 1 Fixture.later).2
  = Some [row_of_post Fixture.old_post] ∧
  state_file (main Fixture.env_down 1 Fixture.later).2 ≠ Some (row_of_post <$> []).
Proof. split_and!; [reflexivity..|by vm_compute]. Qed.

(** * An empty crawl *)

(** C10 — when the crawl returns the empty collection, the run goes on to
    print one line and end with status 0: the state file is as it was, and
    nothing in the whole trace of the run touches the state file or the
    mail API. *)
Theorem empty_crawl_skips (e : env) (fuel : nat) (w w1 : world) :
  scrape_all_pages e fuel (URL e) (log [Stdout (banner e)] w) = (Val [], w1) →
  ∃ t,
    main e fuel w = (Val (), World [] (state_file w) (trace w ++ t)) ∧
    Forall crawl_event t ∧
    last t = Some (Stdout "No posts found or scraping failed. Exiting.") ∧
    exit_status (main e fuel w).1 = Some 0%Z.
Proof.
  intros Hcrawl. rewrite (main_empty e fuel w w1 Hcrawl).
  destruct (scrape_all_pages_effect e fuel (URL e) (log [Stdout (banner e)] w))
    as (t & Hw & Ht & Hr).
  rewrite Hcrawl in Hw, Hr; simpl in Hw, Hr. subst w1. rewrite <- Hr.
  exists ([Stdout (banner e)] ++ t ++ [Stdout "No posts found or scraping failed. Exiting."]).
  split_and!.
  - unfold log; simpl. by rewrite <- !(assoc_L (++)).
  - apply Forall_app; split; [by repeat constructor|].
    apply Forall_app; split; [done | by repeat constructor].
  - by rewrite !(assoc_L (++)), last_snoc.
  - done.
Qed.

Lemma crawl_fixture_down :
  scrape_all_pages Fixture.env_down 1 (URL Fixture.env_down)
                   (log [Stdout (banner Fixture.env_down)] Fixture.later)
  = (Val [],
     World [] (state_file Fixture.later)
           (trace Fixture.later ++ [Stdout (banner Fixture.env_down)]
            ++ broken_trace [] Fixture.url1 "Connection refused")).
Proof. reflexivity. Qed.

Lemma empty_crawl_skips_witness :
  exit_status (main Fixture.env_down 1 Fixture.later).1 = Some 0%Z ∧
  state_file (main Fixture.env_down 1 Fixture.later).2
  = Some [row_of_post Fixture.old_post].
Proof.
  destruct (empty_crawl_skips Fixture.env_down 1 Fixture.later _ crawl_fixture_down)
    as (t & Hmain & _ & _ & Hexit).
  split; [exact Hexit | by rewrite Hmain].
Defined.

(** * A fetch that fails *)

(** C4, as the code has it — when the request for page N fails, the crawl
    returns at once, having requested the URLs of pages 1..N-1 and then the
    failing URL once and nothing after it, and returns the first-wins merge
    of the entries of pages 1..N-1.  When that collection is non-empty and
    the directory is in place, the run goes on with it: the seen links are
    loaded, the collection is saved (and is the content of the state file
    when the write goes through), the delta of the collection against the
    seen links is what is reported, and the run ends normally. *)
Theorem partial_crawl_flows (e : env) (pages : list (string * soup)) (bad err : string)
    (fuel : nat) (w : world) :
  broken_chain e (URL e) pages bad err →
  length pages < fuel →
  let partial := first_wins (chain_entries pages) in
  let w1 := World partial (state_file w)
                  (trace w ++ [Stdout (banner e)] ++ broken_trace pages bad err) in
  scrape_all_pages e fuel (URL e) (log [Stdout (banner e)] w) = (Val partial, w1) ∧
  requested (broken_trace pages bad err) = pages.*1 ++ [bad] ∧
  (partial ≠ [] → makedirs_error e = None →
   ∃ seen wl ws w2,
     load_last_posts e w1 = (Val seen, wl) ∧
     save_current_posts e partial wl = (Val (), ws) ∧
     (write_error e = None → state_file ws = Some (row_of_post <$> partial)) ∧
     report e (check_for_new_posts partial seen) ws = (Val (), w2) ∧
     main e fuel w = (Val (), w2) ∧
     state_file w2 = state_file ws).
Proof.
  intros Hchain Hfuel partial w1.
  assert (scrape_all_pages e fuel (URL e) (log [Stdout (banner e)] w)
          = (Val partial, w1)) as Hcrawl.
  { rewrite scrape_all_pages_run.
    rewrite (scrape_page_broken_chain e pages bad err _ fuel _ Hchain Hfuel).
    subst partial w1. simpl. rewrite merge_nil_first_wins.
    by rewrite <- !(assoc_L (++)). }
  split_and!; [done | apply requested_broken_trace |].
  intros Hne Hmk.
  rewrite (main_nonempty e fuel w w1 partial Hcrawl Hne), bind_run.
  destruct (load_last_posts_total e w1) as (seen & t & Hload). rewrite Hload.
  rewrite bind_run.
  assert (∃ ws, save_current_posts e partial (log t w1) = (Val (), ws) ∧
                (write_error e = None → state_file ws = Some (row_of_post <$> partial)))
    as (ws & Hsave & Hfile).
  { rewrite (save_current_posts_run e partial _ Hmk).
    destruct (write_error e) as [[werr left_on_disk]|]; eexists; split; done. }
  rewrite Hsave.
  destruct (report_run e (check_for_new_posts partial seen) ws) as (t' & Hrep).
  exists seen, (log t w1), ws, (log t' ws). by rewrite Hrep.
Qed.

Lemma broken_chain_fixture :
  broken_chain Fixture.env_page2_down (URL Fixture.env_page2_down)
               [(Fixture.url1, Fixture.page1)] Fixture.url2 "503 Server Error".
Proof.
  simpl. split_and!; try done.
  eexists _, _. split_and!; done.
Qed.

Lemma partial_crawl_flows_witness :
  (scrape_all_pages Fixture.env_page2_down 2 (URL Fixture.env_page2_down)
     (log [Stdout (banner Fixture.env_page2_down)] Fixture.later)).1
  = Val [ Post "Deal A" "https://www.ozbargain.com.au/node/1" "01/02/2025";
          Post "Deal B" "https://external.example/x" "" ]
  ∧ requested (broken_trace [(Fixture.url1, Fixture.page1)] Fixture.url2
                            "503 Server Error")
    = [Fixture.url1; Fixture.url2]
  ∧ state_file (main Fixture.env_page2_down 2 Fixture.later).2
    = Some (row_of_post <$>
              [ Post "Deal A" "https://www.ozbargain.com.au/node/1" "01/02/2025";
                Post "Deal B" "https://external.example/x" "" ]).
Proof.
  destruct (partial_crawl_flows Fixture.env_page2_down
              [(Fixture.url1, Fixture.page1)] Fixture.url2 "503 Server Error"
              2 Fixture.later broken_chain_fixture (le_n 2))
    as (Hcrawl & Hreq & Hflow).
  split_and!; [by rewrite Hcrawl | exact Hreq |].
  destruct Hflow as (seen & wl & ws & w2 & _ & _ & Hfile & _ & Hmain & Hw2);
    [by vm_compute | reflexivity |].
  rewrite Hmain. simpl. rewrite Hw2. by apply Hfile.
Defined.

(** Against C4 as stated: the request for page 1 fails, the crawl returns
    the empty collection, and the run ends without reading or writing the
    state file: what was gathered (nothing) is not persisted, and the file
    keeps the row of the earlier run. *)
Lemma partial_crawl_empty_not_persisted :
  broken_chain Fixture.env_down (URL Fixture.env_down) [] Fixture.url1
               "Connection refused" ∧
  (main Fixture.env_down 1 Fixture.later).1 = Val () ∧
  Forall crawl_event (trace (main Fixture.env_down 1 Fixture.later).2) ∧
  state_file (main Fixture.env_down 1 Fixture.later).2
  = Some [row_of_post Fixture.old_post] ∧
  state_file (main Fixture.env_down 1 Fixture.later).2
  ≠ Some (row_of_post <$> first_wins (chain_entries [])).
Proof.
  split_and!; [done | reflexivity | by repeat constructor | reflexivity | by vm_compute].
Qed.

(** * The pre-flight check *)

Lemma foldl_append_filter {A} (P : A → bool) (l acc : list A) :
  foldl (λ acc x, if P x then acc ++ [x] else acc) acc l
  = acc ++ filter (λ x, P x = true) l.
Proof.
  revert acc. induction l as [|x l IH]; intros acc; simpl.
  - by rewrite app_nil_r.
  - rewrite IH, filter_cons. destruct (P x); simpl; [|done].
    by rewrite <- (assoc_L (++)).
Qed.

Lemma is_missing_spec (environ : gmap string string) (var : string) :
  is_missing environ var = true ↔ environ !! var = None ∨ environ !! var = Some "".
Proof.
  unfold is_missing. destruct (environ !! var) as [v|].
  - rewrite bool_decide_eq_true. split; [intros ->; by right | by intros [?|[= ->]]].
  - split; [by left | done].
Qed.

Lemma missing_vars_filter (environ : gmap string string) :
  missing_vars environ
  = filter (λ var, environ !! var = None ∨ environ !! var = Some "") required_vars.
Proof.
  unfold missing_vars. rewrite foldl_append_filter. simpl.
  apply list_filter_iff. intros var. apply is_missing_spec.
Qed.

(** After the check has passed, every required key is bound to a non-empty
    string. *)
Lemma check_passes_bound (environ : gmap string string) (var : string) :
  missing_vars environ = [] → var ∈ required_vars →
  ∃ v, environ !! var = Some v ∧ v ≠ "".
Proof.
  rewrite missing_vars_filter. intros Hnone Hvar.
  destruct (environ !! var) as [v|] eqn:Hv.
  - exists v. split; [done|]. intros ->.
    assert (var ∈ filter (λ var, environ !! var = None ∨ environ !! var = Some "")
                         required_vars) as Hin
      by (apply list_elem_of_filter; auto).
    rewrite Hnone in Hin. by apply elem_of_nil in Hin.
  - assert (var ∈ filter (λ var, environ !! var = None ∨ environ !! var = Some "")
                         required_vars) as Hin
      by (apply list_elem_of_filter; auto).
    rewrite Hnone in Hin. by apply elem_of_nil in Hin.
Qed.

(** C8 — the list of missing keys is the required keys that are unset or
    empty, in the order of the requirement.  When at least one required key
    is unset or empty, the script prints three lines, the second of which
    lists all missing keys, and exits with status 1; nothing else has
    happened: no request, no sleep, no access to the state file or the
    mail API, and the state file is as it was.  When every required key is
    bound to a non-empty string, the check returns without any effect and
    the script goes on with the main block. *)
Theorem preflight_check (e : env) (fuel : nat) (w : world) :
  let missing :=
    filter (λ var, environ e !! var = None ∨ environ e !! var = Some "") required_vars in
  missing_vars (environ e) = missing ∧
  ((∃ var, var ∈ required_vars ∧ (environ e !! var = None ∨ environ e !! var = Some "")) →
   script e fuel w =
     (Raise (SystemExit 1),
      World (all_posts w) (state_file w)
            (trace w ++
             [ Stdout "--- ‚ùå CRITICAL ERROR ---";
               Stdout ("The following required environment variables are missing: "
                       +:+ join ", " missing);
               Stdout "Script aborted." ])) ∧
   exit_status (script e fuel w).1 = Some 1%Z) ∧
  ((∀ var, var ∈ required_vars → ∃ v, environ e !! var = Some v ∧ v ≠ "") →
   check_environment_vars (environ e) w = (Val (), w) ∧
   script e fuel w = main e fuel w).
Proof.
  intros missing. split_and!.
  - apply missing_vars_filter.
  - intros (var & Hvar & Hmiss).
    assert (var ∈ missing) as Hin by (by apply list_elem_of_filter).
    assert (script e fuel w =
            (Raise (SystemExit 1),
             World (all_posts w) (state_file w)
               (trace w ++
                [ Stdout "--- ‚ùå CRITICAL ERROR ---";
                  Stdout ("The following required environment variables are missing: "
                          +:+ join ", " missing);
                  Stdout "Script aborted." ]))) as Hrun.
    { unfold script, check_environment_vars.
      rewrite missing_vars_filter. fold missing.
      destruct missing as [|m ms]; [by apply elem_of_nil in Hin|].
      destruct w as [ps sf tr].
      unfold print, emit, raise, mbind, M_bind; simpl.
      by rewrite <- !(assoc_L (++)). }
    by rewrite Hrun.
  - intros Hall.
    assert (missing = []) as Hnone.
    { destruct missing as [|var ms] eqn:Hm; [done|].
      assert (var ∈ missing) as [Hmiss Hvar]%list_elem_of_filter
        by (subst missing; rewrite Hm; apply list_elem_of_here).
      destruct (Hall var Hvar) as (v & Hv & Hne).
      destruct Hmiss as [Hmiss|Hmiss]; rewrite Hv in Hmiss; congruence. }
    assert (check_environment_vars (environ e) w = (Val (), w)) as Hcheck.
    { unfold check_environment_vars. rewrite missing_vars_filter. fold missing.
      by rewrite Hnone. }
    split; [done|]. unfold script. by rewrite bind_run, Hcheck.
Qed.

Lemma preflight_check_witness :
  script Fixture.env_incomplete 3 Fixture.later =
    (Raise (SystemExit 1),
     World [] (state_file Fixture.later)
           [ Stdout "--- ‚ùå CRITICAL ERROR ---";
             Stdout ("The following required environment variables are missing: "
                     +:+ "SENDER_EMAIL, TITLE");
             Stdout "Script aborted." ]).
Proof.
  destruct (preflight_check Fixture.env_incomplete 3 Fixture.later) as (_ & Hexit & _).
  destruct Hexit as [Hrun _].
  - exists "TITLE". split; [|by right].
    do 4 apply list_elem_of_further. apply list_elem_of_here.
  - exact Hrun.
Defined.

Example preflight_passes :
  check_environment_vars (environ Fixture.env_up) Fixture.later = (Val (), Fixture.later).
Proof. reflexivity. Qed.

(** * Saving, then loading *)

Lemma row_of_post_link (p : post) : row_of_post p !! "link" = Some (link p).
Proof.
  unfold row_of_post.
  by rewrite (lookup_insert_ne _ "title" "link"), lookup_insert_eq.
Qed.

Lemma foldl_add_seen_link (rows : list row) (seen : gset string) (l : string) :
  l ∈ foldl add_seen_link seen rows ↔
  l ∈ seen ∨ (l ≠ "" ∧ ∃ r, r ∈ rows ∧ strip (default "" (r !! "link")) = l).
Proof.
  revert seen. induction rows as [|r rows IH]; intros seen; simpl.
  - split; [by left | intros [?|(_ & r & ?%elem_of_nil & _)]; done].
  - rewrite IH. unfold add_seen_link at 1. case_bool_decide as Hempty.
    + split.
      * intros [?|(Hl & r' & Hr' & Heq)]; [by left|].
        right. split; [done|]. exists r'. split; [by right | done].
      * intros [?|(Hl & r' & [->|Hr']%elem_of_cons & Heq)]; [by left | congruence |].
        right. eauto.
    + rewrite elem_of_union, elem_of_singleton. split.
      * intros [[?| ->]|(Hl & r' & Hr' & Heq)].
        -- by left.
        -- right. split; [done|]. exists r. split; [by left | done].
        -- right. split; [done|]. exists r'. split; [by right | done].
      * intros [?|(Hl & r' & [->|Hr']%elem_of_cons & Heq)]; [by left; left | by left; right |].
        right. eauto.
Qed.

(** Saving, then loading, where the round trip does hold: with no fault on
    the disk, saving a collection puts its rows in the state file, and
    loading then yields the non-empty stripped links of the collection.
    So, when every link of the collection is non-empty and has no
    whitespace at either end, the loaded set is the set of the links of the
    collection and the delta of the collection against it is empty. *)
Theorem save_then_load (e : env) (C : list post) (w : world) :
  disk_sound e →
  ∃ w1 seen w2,
    save_current_posts e C w = (Val (), w1) ∧
    state_file w1 = Some (row_of_post <$> C) ∧
    load_last_posts e w1 = (Val seen, w2) ∧
    (∀ l, l ∈ seen ↔ l ≠ "" ∧ ∃ p, p ∈ C ∧ strip (link p) = l) ∧
    ((∀ p, p ∈ C → link p ≠ "" ∧ strip (link p) = link p) →
     seen = list_to_set (link <$> C) ∧ check_for_new_posts C seen = []).
Proof.
  intros (Hmk & Hrd & Hwr).
  rewrite (save_current_posts_run e C w Hmk), Hwr.
  eexists _, (foldl add_seen_link ∅ (row_of_post <$> C)), _.
  split_and!; [done | done | by rewrite load_last_posts_run; simpl; rewrite Hrd | |].
  - intros l. rewrite foldl_add_seen_link. split.
    + intros [?%not_elem_of_empty|(Hl & r & (p & -> & Hp)%list_elem_of_fmap & Heq)]; [done|].
      rewrite row_of_post_link in Heq. eauto.
    + intros (Hl & p & Hp & Heq). right. split; [done|].
      exists (row_of_post p). split; [by apply list_elem_of_fmap_2|].
      by rewrite row_of_post_link.
  - intros Hclean.
    assert (foldl add_seen_link ∅ (row_of_post <$> C) = list_to_set (link <$> C)) as ->.
    { apply set_eq. intros l. rewrite foldl_add_seen_link, elem_of_list_to_set. split.
      + intros [?%not_elem_of_empty|(Hl & r & (p & -> & Hp)%list_elem_of_fmap & Heq)];
          [done|].
        rewrite row_of_post_link in Heq. simpl in Heq.
        destruct (Hclean p Hp) as [_ Hstrip]. rewrite Hstrip in Heq. subst l.
        by apply list_elem_of_fmap_2.
      + intros (p & -> & Hp)%list_elem_of_fmap. right.
        destruct (Hclean p Hp) as [Hne Hstrip]. split; [done|].
        exists (row_of_post p). split; [by apply list_elem_of_fmap_2|].
        by rewrite row_of_post_link. }
    split; [done|]. by apply check_for_new_posts_all_seen.
Qed.

Lemma disk_sound_fixture : disk_sound Fixture.env_up.
Proof. by split_and!. Qed.

Lemma save_then_load_witness :
  let w1 := (save_current_posts Fixture.env_up [Fixture.old_post] Fixture.fresh).2 in
  match (load_last_posts Fixture.env_up w1).1 with
  | Val seen => check_for_new_posts [Fixture.old_post] seen = []
  | _ => False
  end.
Proof.
  destruct (save_then_load Fixture.env_up [Fixture.old_post] Fixture.fresh
              disk_sound_fixture)
    as (w1 & seen & w2 & Hsave & _ & Hload & _ & Hclean).
  cbv zeta. rewrite Hsave. cbn [snd]. rewrite Hload. cbn [fst].
  apply Hclean. intros p ->%list_elem_of_singleton. by vm_compute.
Defined.

(** C6 — the round trip fails on the code: [load_last_posts] strips the
    links it reads (line 146) while [scrape_page], [save_current_posts] and
    [check_for_new_posts] use the link as scraped.  An anchor whose href
    ends in a space yields a record whose link ends in a space; it is saved
    so, the set loaded back holds the stripped link and not the link, the
    delta of the collection against that set is the whole collection, and a
    second run against the same listing mails the post again. *)
Lemma save_then_load_spaced_link :
  entry_of (Anchor "Deal S" (Some "/node/7 ") None) = Some Fixture.spaced_post ∧
  let C := [Fixture.spaced_post] in
  let w1 := (save_current_posts Fixture.env_up C Fixture.fresh).2 in
  let seen := match (load_last_posts Fixture.env_up w1).1 with
              | Val seen_links => seen_links
              | _ => ∅
              end in
  (save_current_posts Fixture.env_up C Fixture.fresh).1 = Val () ∧
  elements seen = ["https://www.ozbargain.com.au/node/7"] ∧
  seen ≠ list_to_set (link <$> C) ∧
  check_for_new_posts C seen = C ∧
  check_for_new_posts C seen ≠ [] ∧
  let first_run := (script Fixture.env_spaced 2 Fixture.fresh).2 in
  let second_run :=
    (script Fixture.env_spaced 2 (World [] (state_file first_run) [])).2 in
  omap (λ ev, match ev with EmailSend params => Some (subject params) | _ => None end)
       (trace second_run)
  = ["üö® Deals Alert: 1 New Posts Found"].
Proof.
  split; [reflexivity|]. cbv zeta.
  split_and!; [reflexivity | by vm_compute | | by vm_compute | by vm_compute
              | by vm_compute].
  intros Heq. apply (f_equal elements) in Heq. vm_compute in Heq. discriminate.
Qed.

(** * More on the crawl *)

(** The crawl reads neither the state file nor the earlier trace. *)
Lemma scrape_page_frame (e : env) (fuel : nat) :
  ∀ (url : string) (w : world),
    scrape_page e fuel url w =
    ((scrape_page e fuel url (World (all_posts w) None [])).1,
     World (all_posts (scrape_page e fuel url (World (all_posts w) None [])).2)
           (state_file w)
           (trace w ++ trace (scrape_page e fuel url (World (all_posts w) None [])).2)).
Proof.
  induction fuel as [|fuel IH]; intros url w.
  - destruct w; simpl. by rewrite app_nil_r.
  - rewrite !scrape_page_S. cbv zeta. unfold log, with_posts.
    cbn [all_posts state_file trace app].
    destruct (web e url) as [err|s];
      [cbn [fst snd all_posts state_file trace]; by rewrite <- ?(assoc_L (++))|].
    destruct (select_one_next s) as [tag|];
      [|cbn [fst snd all_posts state_file trace]; by rewrite <- ?(assoc_L (++))].
    destruct (get_href tag) as [href|];
      [|cbn [fst snd all_posts state_file trace]; by rewrite <- ?(assoc_L (++))].
    rewrite (IH _ (World _ (state_file w) _)).
    rewrite (IH _ (World _ None (_ :: _))).
    cbn [all_posts state_file trace].
    match goal with |- context [scrape_page e fuel ?u ?w'] =>
      destruct (scrape_page e fuel u w') as [[v|x|] w3] end;
      cbn [fst snd all_posts state_file trace]; by rewrite <- ?(assoc_L (++)).
Qed.

Lemma scrape_all_pages_frame (e : env) (fuel : nat) (url : string) (w : world) :
  scrape_all_pages e fuel url w =
  ((scrape_all_pages e fuel url (World [] None [])).1,
   World (all_posts (scrape_all_pages e fuel url (World [] None [])).2)
         (state_file w)
         (trace w ++ trace (scrape_all_pages e fuel url (World [] None [])).2)).
Proof.
  rewrite !scrape_all_pages_run. unfold with_posts; simpl.
  by rewrite (scrape_page_frame e fuel url (World [] (state_file w) (trace w))).
Qed.

(** The crawl consults the environment for the answers of the web and for
    nothing else. *)
Lemma scrape_page_web (e e' : env) (fuel : nat) :
  (∀ u, web e u = web e' u) →
  ∀ (url : string) (w : world), scrape_page e fuel url w = scrape_page e' fuel url w.
Proof.
  intros Hweb. induction fuel as [|fuel IH]; intros url w; [done|].
  rewrite !scrape_page_S, (Hweb url). cbv zeta.
  destruct (web e' url) as [err|s]; [done|].
  destruct (select_one_next s) as [tag|]; [|done].
  destruct (get_href tag) as [href|]; [|done].
  by rewrite IH.
Qed.

(** X1 — what a crawl returns, the list it builds and the events it adds
    depend on the web, the fuel and the seed URL alone: under any two
    environments in which the web answers alike (whatever their process
    environment, clock, disk faults and mail API) and from any two worlds,
    it ends the same way with the same list, adds the same events to either
    trace and keeps either state file.  In particular the list passed
    around never carries records of an earlier crawl. *)
Theorem crawl_depends_on_web_only (e e' : env) (fuel : nat) (url : string)
    (w w' : world) :
  (∀ u, web e u = web e' u) →
  (scrape_all_pages e fuel url w).1 = (scrape_all_pages e' fuel url w').1 ∧
  all_posts (scrape_all_pages e fuel url w).2
  = all_posts (scrape_all_pages e' fuel url w').2 ∧
  state_file (scrape_all_pages e fuel url w).2 = state_file w ∧
  state_file (scrape_all_pages e' fuel url w').2 = state_file w' ∧
  ∃ t, trace (scrape_all_pages e fuel url w).2 = trace w ++ t ∧
       trace (scrape_all_pages e' fuel url w').2 = trace w' ++ t.
Proof.
  intros Hweb.
  rewrite (scrape_all_pages_frame e fuel url w), (scrape_all_pages_frame e' fuel url w').
  rewrite !scrape_all_pages_run, (scrape_page_web e e' fuel Hweb).
  split_and!; [done..|]. by eexists.
Qed.

Lemma crawl_depends_on_web_only_witness :
  (scrape_all_pages Fixture.env_up 3 Fixture.url1 Fixture.fresh).1
  = (scrape_all_pages Scenario.env_all_faults 3 Fixture.url1 Fixture.later).1 ∧
  all_posts (scrape_all_pages Fixture.env_up 3 Fixture.url1 Fixture.fresh).2
  = all_posts (scrape_all_pages Scenario.env_all_faults 3 Fixture.url1 Fixture.later).2.
Proof.
  destruct (crawl_depends_on_web_only Fixture.env_up Scenario.env_all_faults 3
              Fixture.url1 Fixture.fresh Fixture.later (λ u, eq_refl))
    as (Hres & Hlist & _).
  by split.
Defined.

(** X2 — whatever the fuel and however it ends, a crawl leaves the state
    file as it was and adds only prints, requests and sleeps to the trace:
    it neither tests, reads, creates nor writes the state file, and hands
    nothing to the mail API. *)
Theorem crawl_only_crawls (e : env) (fuel : nat) (url : string) (w : world) :
  state_file (scrape_all_pages e fuel url w).2 = state_file w ∧
  ∃ t, trace (scrape_all_pages e fuel url w).2 = trace w ++ t ∧
       Forall crawl_event t ∧
       mails t = [] ∧
       Forall (λ ev, ev ∉ [PathExists; MakeDirs; OpenRead; OpenWrite]) t.
Proof.
  destruct (scrape_all_pages_effect e fuel url w) as (t & Hw & Ht & _).
  rewrite Hw. split; [done|]. exists t. split_and!; [done | done | |].
  - clear Hw. induction Ht as [|ev t Hev _ IH]; [done|].
    unfold mails in *. by destruct ev.
  - eapply Forall_impl; [exact Ht|]. intros ev Hev Hin.
    repeat (apply elem_of_cons in Hin as [->|Hin]; [done|]).
    by apply elem_of_nil in Hin.
Qed.

Lemma crawl_only_crawls_witness :
  state_file (scrape_all_pages Scenario.env_no_href 4 Fixture.url1 Fixture.later).2
  = state_file Fixture.later.
Proof.
  exact (proj1 (crawl_only_crawls Scenario.env_no_href 4 Fixture.url1 Fixture.later)).
Defined.

Lemma link_full_of_absolute_form (href : string) :
  href ≠ "" →
  link_full_of href ≠ "" ∧ startswith (link_full_of href) "/" = false.
Proof.
  intros Hne. unfold link_full_of.
  destruct (startswith href "/") eqn:Hs; [done | by split].
Qed.

Lemma entry_of_usable (a : a_tag) (p : post) :
  entry_of a = Some p →
  title p ≠ "" ∧ link p ≠ "" ∧ startswith (link p) "/" = false.
Proof.
  unfold entry_of. case_bool_decide as Hhref; simpl; [done|].
  case_bool_decide as Htitle; simpl; [done|]. intros [= <-]; simpl.
  split; [done|]. by apply link_full_of_absolute_form.
Qed.

Lemma discovered_usable (e : env) (t : list event) (p : post) :
  p ∈ discovered e t → ∃ a, entry_of a = Some p.
Proof.
  unfold discovered. intros (s & Hp & _)%list_elem_of_bind.
  unfold page_entries in Hp. apply list_elem_of_omap in Hp as (a & _ & Ha). eauto.
Qed.

(** X3 — every record of the list a crawl builds, at any point and however
    the crawl ends, has a non-empty title and a non-empty link that does
    not start with "/": entries without href or title are left out (line
    88) and site-relative hrefs are resolved (line 101).  Resolving such a
    link again changes nothing. *)
Theorem crawl_records_usable (e : env) (fuel : nat) (url : string) (w : world)
    (p : post) :
  p ∈ all_posts (scrape_all_pages e fuel url w).2 →
  title p ≠ "" ∧ link p ≠ "" ∧ startswith (link p) "/" = false ∧
  link_full_of (link p) = link p.
Proof.
  destruct (scrape_all_pages_effect e fuel url w) as (t & Hw & _ & _).
  rewrite Hw; simpl. intros Hp.
  assert (p ∈ discovered e t) as Hd.
  { eapply elem_of_sublist; [exact Hp | apply first_wins_from_sublist]. }
  destruct (discovered_usable e t p Hd) as (a & Ha).
  destruct (entry_of_usable a p Ha) as (Ht & Hl & Hs).
  split_and!; [done..|]. unfold link_full_of. by rewrite Hs.
Qed.

Lemma crawl_records_usable_witness :
  startswith "https://www.ozbargain.com.au/node/3" "/" = false ∧
  link_full_of "https://www.ozbargain.com.au/node/3"
  = "https://www.ozbargain.com.au/node/3".
Proof.
  destruct (crawl_records_usable Fixture.env_up 3 Fixture.url1 Fixture.fresh
              (Post "Deal C" "https://www.ozbargain.com.au/node/3" "02/02/2025"))
    as (_ & _ & Hs & Hfix).
  - vm_compute. do 2 apply list_elem_of_further. apply list_elem_of_here.
  - split; [exact Hs | exact Hfix].
Defined.

(** X4 — the looser selector is used exactly when the primary selector
    matches no anchor at all (line 81): a single page without a next-page
    anchor yields the first-wins entries of the looser selector's anchors
    when the primary one matches nothing, and those of the primary
    selector's anchors otherwise, even when none of these is usable and the
    looser selector would have found some. *)
Theorem fallback_selector (e : env) (fuel : nat) (url : string) (w : world) (s : soup) :
  web e url = Page s →
  select_one_next s = None →
  (select_primary s = [] →
   (scrape_all_pages e (S fuel) url w).1
   = Val (first_wins (omap entry_of (select_fallback s)))) ∧
  (select_primary s ≠ [] →
   (scrape_all_pages e (S fuel) url w).1
   = Val (first_wins (omap entry_of (select_primary s)))).
Proof.
  intros Hweb Hnext.
  assert ((scrape_all_pages e (S fuel) url w).1 = Val (first_wins (page_entries s)))
    as ->.
  { rewrite scrape_all_pages_run, scrape_page_S, Hweb. cbv zeta. rewrite Hnext.
    simpl. by rewrite merge_nil_first_wins. }
  unfold page_entries, search_result_links.
  split; [by intros -> | by destruct (select_primary s)].
Qed.

Lemma fallback_selector_witness :
  (scrape_all_pages (Fixture.env_of (λ _, Page Scenario.page_primary_unusable)) 1
                    Fixture.url1 Fixture.fresh).1
  = Val [].
Proof.
  destruct (fallback_selector (Fixture.env_of (λ _, Page Scenario.page_primary_unusable))
              0 Fixture.url1 Fixture.fresh Scenario.page_primary_unusable
              eq_refl eq_refl) as [_ Hprimary].
  rewrite Hprimary by done. reflexivity.
Defined.

(** X5 — a next-page anchor without an href (line 112 yields [None]): the
    call raises [TypeError] at line 113, after the entries of the page were
    merged into the list and before any sleep or further request; no
    handler of any enclosing call catches it. *)
Theorem next_without_href_raises (e : env) (fuel : nat) (url : string) (w : world)
    (s : soup) (tag : a_tag) :
  web e url = Page s →
  select_one_next s = Some tag →
  get_href tag = None →
  scrape_page e (S fuel) url w =
  (Raise TypeError,
   World (merge (all_posts w) (page_entries s)) (state_file w)
         (trace w ++ [Stdout ("Scraping page: " +:+ url); HttpGet url])).
Proof.
  intros Hweb Hnext Hhref.
  rewrite scrape_page_S, Hweb. cbv zeta. by rewrite Hnext, Hhref.
Qed.

Lemma next_without_href_raises_witness :
  (scrape_page Scenario.env_no_href 1 Fixture.url1 Fixture.fresh).1 = Raise TypeError ∧
  all_posts (scrape_page Scenario.env_no_href 1 Fixture.url1 Fixture.fresh).2
  = [Post "Deal A" "https://www.ozbargain.com.au/node/1" ""].
Proof.
  rewrite (next_without_href_raises Scenario.env_no_href 0 Fixture.url1 Fixture.fresh
             Scenario.page_no_href (Anchor "next" None None) eq_refl eq_refl eq_refl).
  split; reflexivity.
Defined.

(** X6 — a page whose next-page anchor leads back to the page itself:
    the recursion of line 119 never bottoms out.  Whatever depth is at
    hand is used up: with fuel [n] the call ends out of fuel, having
    requested the URL once at each of the [n] levels, and so never returns
    a list.  (In the interpreter, running out of depth is the
    [RecursionError] that no handler catches.)  There is no loop
    detection. *)
Theorem self_loop_never_returns (e : env) (url : string) (s : soup) (tag : a_tag)
    (href : string) (fuel : nat) (w : world) :
  web e url = Page s →
  select_one_next s = Some tag →
  get_href tag = Some href →
  BASE_URL +:+ href = url →
  (scrape_page e fuel url w).1 = OutOfFuel ∧
  requested (trace (scrape_page e fuel url w).2)
  = requested (trace w) ++ replicate fuel url.
Proof.
  intros Hweb Hnext Hhref Hloop. revert w.
  induction fuel as [|fuel IH]; intros w.
  - simpl. by rewrite app_nil_r.
  - rewrite scrape_page_S, Hweb. cbv zeta. rewrite Hnext, Hhref, Hloop.
    match goal with |- context [scrape_page e fuel url ?w'] =>
      destruct (IH w') as [Hr Hreq];
      destruct (scrape_page e fuel url w') as [r w3] end.
    simpl in Hr, Hreq. subst r. simpl. rewrite Hreq.
    unfold requested; simpl. rewrite !omap_app; simpl.
    by rewrite <- !(assoc_L (++)).
Qed.

Lemma self_loop_never_returns_witness :
  (scrape_page Scenario.env_loop 7 "https://www.ozbargain.com.au/deals" Fixture.fresh).1
  = OutOfFuel.
Proof.
  exact (proj1 (self_loop_never_returns Scenario.env_loop
                  "https://www.ozbargain.com.au/deals" Scenario.page_loop
                  (Anchor "next" (Some "/deals") None) "/deals" 7 Fixture.fresh
                  eq_refl eq_refl eq_refl eq_refl)).
Defined.

Lemma net_app (t1 t2 : list event) : net (t1 ++ t2) = net t1 ++ net t2.
Proof. apply filter_app. Qed.

Lemma scrape_page_paced (e : env) (fuel : nat) :
  ∀ (url : string) (w : world),
    (scrape_page e fuel url w).1 ≠ OutOfFuel →
    ∃ t rest,
      trace (scrape_page e fuel url w).2 = trace w ++ t ∧
      requested t = url :: rest ∧
      net t = paced (url :: rest).
Proof.
  induction fuel as [|fuel IH]; intros url w; [done|].
  rewrite scrape_page_S. cbv zeta.
  destruct (web e url) as [err|s].
  { intros _. eexists _, []. unfold log; simpl.
    rewrite <- (assoc_L (++)). split; [done|]. by split. }
  destruct (select_one_next s) as [tag|].
  2:{ intros _. by exists [Stdout ("Scraping page: " +:+ url); HttpGet url], []. }
  destruct (get_href tag) as [href|].
  2:{ intros _. by exists [Stdout ("Scraping page: " +:+ url); HttpGet url], []. }
  match goal with |- context [scrape_page e fuel ?u ?w'] =>
    pose proof (IH u w') as Hin;
    destruct (scrape_page e fuel u w') as [r w3] end.
  intros Hout. destruct Hin as (t' & rest' & Htr & Hreq & Hnet).
  { simpl. by destruct r. }
  simpl in Htr.
  exists ([Stdout ("Scraping page: " +:+ url); HttpGet url; Sleep 1] ++ t'),
         ((BASE_URL +:+ href) :: rest').
  assert (∀ r' w', (match r' with
                    | Val _ => (Val (all_posts w'), w')
                    | Raise x => (Raise x, w')
                    | OutOfFuel => (OutOfFuel, w')
                    end : res (list post) * world).2 = w') as -> by (by intros []).
  split_and!.
  - rewrite Htr. by rewrite <- !(assoc_L (++)).
  - rewrite requested_app, Hreq. done.
  - rewrite net_app, Hnet. done.
Qed.

(** X7 — the delay of line 116 falls between two requests and nowhere
    else: whenever a crawl returns or raises, its requests and sleeps are,
    in order, a request for the seed URL followed, for each further URL, by
    a sleep of one second and the request for it.  No sleep precedes the
    first request or follows the last. *)
Theorem crawl_sleeps_between_requests (e : env) (fuel : nat) (url : string) (w : world) :
  (scrape_all_pages e fuel url w).1 ≠ OutOfFuel →
  ∃ t rest,
    trace (scrape_all_pages e fuel url w).2 = trace w ++ t ∧
    requested t = url :: rest ∧
    net t = paced (url :: rest).
Proof.
  rewrite scrape_all_pages_run. apply (scrape_page_paced e fuel url (with_posts [] w)).
Qed.

Lemma crawl_sleeps_between_requests_witness :
  net (trace (scrape_all_pages Fixture.env_up 3 Fixture.url1 Fixture.fresh).2)
  = [ HttpGet Fixture.url1; Sleep 1; HttpGet Fixture.url2; Sleep 1;
      HttpGet Fixture.url3 ].
Proof.
  destruct (crawl_sleeps_between_requests Fixture.env_up 3 Fixture.url1 Fixture.fresh)
    as (t & rest & Htr & Hreq & Hnet); [by vm_compute|].
  assert (t = trace (scrape_all_pages Fixture.env_up 3 Fixture.url1 Fixture.fresh).2)
    as -> by (by rewrite Htr).
  transitivity (paced (Fixture.url1 :: rest)); [exact Hnet|].
  vm_compute in Hreq. injection Hreq as <-. reflexivity.
Defined.

(** * More on the main block *)

Lemma crawl_returns_list (e : env) (fuel : nat) (url : string) (w w1 : world)
    (posts : list post) :
  scrape_all_pages e fuel url w = (Val posts, w1) →
  ∃ t, w1 = World posts (state_file w) (trace w ++ t) ∧ Forall crawl_event t.
Proof.
  intros Hcrawl.
  destruct (scrape_all_pages_effect e fuel url w) as (t & Hw & Ht & Hr).
  rewrite Hcrawl in Hw, Hr; simpl in Hw, Hr. exists t. by subst.
Qed.

Lemma load_last_posts_steps (e : env) (w : world) :
  load_last_posts e w
  = (Val (loaded e (state_file w)), log (load_events e (state_file w)) w).
Proof.
  rewrite load_last_posts_run. unfold loaded, load_events, rows_read, links_of_rows.
  destruct (state_file w); [|done]. by destruct (read_error e) as [[]|].
Qed.

Lemma save_current_posts_steps (e : env) (posts : list post) (w : world) :
  makedirs_error e = None →
  save_current_posts e posts w
  = (Val (), World (all_posts w) (saved e posts) (trace w ++ save_events e)).
Proof.
  intros Hmk. rewrite (save_current_posts_run e posts w Hmk).
  unfold saved, save_events. by destruct (write_error e) as [[]|].
Qed.

Lemma report_steps (e : env) (new_posts : list post) (w : world) :
  resend_api_key e ≠ "" →
  report e new_posts w = (Val (), log (report_events e new_posts) w).
Proof.
  intros Hkey. destruct new_posts as [|p ps]; [done|].
  destruct w as [posts file t].
  unfold report, send_alert_email, resend_emails_send, print, emit, log,
    mbind, M_bind; simpl.
  rewrite bool_decide_eq_false_2 by done. simpl.
  destruct (resend_send e _) as [id|err]; simpl; by rewrite <- !(assoc_L (++)).
Qed.

(** The main block after a non-empty crawl, the directory being there and
    the API key set. *)
Lemma main_steps (e : env) (fuel : nat) (w w1 : world) (posts : list post) :
  scrape_all_pages e fuel (URL e) (log [Stdout (banner e)] w) = (Val posts, w1) →
  posts ≠ [] →
  makedirs_error e = None →
  resend_api_key e ≠ "" →
  main e fuel w =
  (Val (),
   World posts (saved e posts)
         (trace w1 ++ load_events e (state_file w) ++ save_events e
          ++ report_events e (check_for_new_posts posts (loaded e (state_file w))))).
Proof.
  intros Hcrawl Hne Hmk Hkey.
  rewrite (main_nonempty e fuel w w1 posts Hcrawl Hne).
  destruct (crawl_returns_list e fuel _ _ _ _ Hcrawl) as (t & -> & _).
  rewrite bind_run, load_last_posts_steps, bind_run.
  rewrite (save_current_posts_steps e posts _ Hmk), (report_steps e _ _ Hkey).
  unfold log; simpl. by rewrite <- !(assoc_L (++)).
Qed.

Lemma mails_app (t1 t2 : list event) : mails (t1 ++ t2) = mails t1 ++ mails t2.
Proof. apply omap_app. Qed.

Lemma mails_load_events (e : env) (file : option (list row)) :
  mails (load_events e file) = [].
Proof. unfold load_events. destruct file; [|done]. by destruct (read_error e) as [[]|]. Qed.

Lemma mails_save_events (e : env) : mails (save_events e) = [].
Proof. unfold save_events. by destruct (write_error e) as [[]|]. Qed.

Lemma check_for_new_posts_sublist (C : list post) (S : gset string) :
  check_for_new_posts C S `sublist_of` C.
Proof. rewrite check_for_new_posts_filter. apply sublist_filter. Qed.

Lemma check_for_new_posts_distinct (C : list post) (S : gset string) :
  distinct_links C → distinct_links (check_for_new_posts C S).
Proof.
  unfold distinct_links. intros Hnd.
  eapply sublist_NoDup; [exact Hnd|].
  apply fmap_sublist, check_for_new_posts_sublist.
Qed.

Lemma check_for_new_posts_nothing_seen (C : list post) :
  check_for_new_posts C ∅ = C.
Proof.
  induction C as [|p C IH]; simpl; [done|].
  rewrite bool_decide_eq_false_2 by set_solver. by rewrite IH.
Qed.

Lemma crawl_returns_distinct (e : env) (fuel : nat) (url : string) (w w1 : world)
    (posts : list post) :
  scrape_all_pages e fuel url w = (Val posts, w1) → distinct_links posts.
Proof.
  intros Hcrawl.
  destruct (scrape_all_pages_effect e fuel url w) as (t & _ & _ & Hr).
  rewrite Hcrawl in Hr; simpl in Hr. subst posts. apply first_wins_from_distinct.
Qed.

(** The crawl of the three fixture pages, for any environment with that
    web and seed URL, from any world. *)
Lemma crawl_web_up (e : env) (w : world) :
  web e = Fixture.web_up →
  URL e = Fixture.url1 →
  scrape_all_pages e 3 (URL e) (log [Stdout (banner e)] w)
  = (Val (first_wins (chain_entries Fixture.pages)),
     World (first_wins (chain_entries Fixture.pages)) (state_file w)
           (trace w ++ [Stdout (banner e)] ++ chain_trace Fixture.pages)).
Proof.
  intros Hweb Hurl.
  assert (chain e Fixture.url1 Fixture.pages) as Hchain.
  { simpl. rewrite !Hweb. split_and!; try done.
    eexists _, _. split_and!; try done.
    eexists _, _. split_and!; done. }
  rewrite Hurl, scrape_all_pages_run.
  rewrite (scrape_page_chain e Fixture.pages Fixture.url1 3 _ Hchain (le_n 3)).
  unfold log, with_posts. cbn [all_posts state_file trace].
  rewrite merge_nil_first_wins. by rewrite <- !(assoc_L (++)).
Qed.

Lemma fixture_posts_nonempty : first_wins (chain_entries Fixture.pages) ≠ [].
Proof. by vm_compute. Qed.

(** X8 — after a non-empty crawl, the directory being there and the API
    key set, whatever the disk and the mail API do otherwise: the run ends
    normally; it loads, then saves, then reports, in this order; it hands
    the mail API exactly one mail when some crawled post has a link that is
    not among the loaded links, and none otherwise; the mail is the alert
    for exactly those posts, in crawl order, no link twice. *)
Theorem one_mail_iff_new (e : env) (fuel : nat) (w w1 : world) (posts : list post) :
  scrape_all_pages e fuel (URL e) (log [Stdout (banner e)] w) = (Val posts, w1) →
  posts ≠ [] →
  makedirs_error e = None →
  resend_api_key e ≠ "" →
  let new_posts := check_for_new_posts posts (loaded e (state_file w)) in
  let t := load_events e (state_file w) ++ save_events e ++ report_events e new_posts in
  (main e fuel w).1 = Val () ∧
  trace (main e fuel w).2 = trace w1 ++ t ∧
  mails t = match new_posts with
            | [] => []
            | _ :: _ => [alert_params e new_posts]
            end ∧
  distinct_links new_posts.
Proof.
  intros Hcrawl Hne Hmk Hkey new_posts t.
  rewrite (main_steps e fuel w w1 posts Hcrawl Hne Hmk Hkey).
  split_and!; [done | done | |].
  - subst t. rewrite !mails_app, mails_load_events, mails_save_events. simpl.
    by destruct new_posts.
  - apply check_for_new_posts_distinct. by eapply crawl_returns_distinct.
Qed.

Lemma one_mail_iff_new_witness :
  mails (trace (main Fixture.env_up 3 Scenario.knows_deal_a).2)
  = [ alert_params Fixture.env_up
        [ Post "Deal B" "https://external.example/x" "";
          Post "Deal C" "https://www.ozbargain.com.au/node/3" "02/02/2025";
          Post "Deal D" "https://www.ozbargain.com.au/node/4" "" ] ].
Proof.
  destruct (one_mail_iff_new Fixture.env_up 3 Scenario.knows_deal_a _ _
              (crawl_web_up Fixture.env_up Scenario.knows_deal_a eq_refl eq_refl)
              fixture_posts_nonempty eq_refl)
    as (_ & Htrace & Hmails & _); [by vm_compute|].
  etrans; [exact (f_equal mails Htrace)|]. rewrite mails_app.
  etrans; [exact (f_equal2 app eq_refl Hmails)|]. by vm_compute.
Defined.

(** X9 — a first run, with no state file: after a non-empty crawl (the
    directory being there, the API key set) every crawled post counts as
    new; the one mail handed to the mail API is the alert for the whole
    collection, and the state file is created with the rows of the
    collection when the write goes through. *)
Theorem first_run_reports_all (e : env) (fuel : nat) (w w1 : world) (posts : list post) :
  scrape_all_pages e fuel (URL e) (log [Stdout (banner e)] w) = (Val posts, w1) →
  posts ≠ [] →
  makedirs_error e = None →
  resend_api_key e ≠ "" →
  state_file w = None →
  (main e fuel w).1 = Val () ∧
  trace (main e fuel w).2
  = trace w1 ++ [PathExists] ++ save_events e
    ++ [ Stdout (found_line posts); EmailSend (alert_params e posts);
         Stdout (send_line (resend_send e (alert_params e posts))) ] ∧
  (write_error e = None →
   state_file (main e fuel w).2 = Some (row_of_post <$> posts)).
Proof.
  intros Hcrawl Hne Hmk Hkey Hfile.
  rewrite (main_steps e fuel w w1 posts Hcrawl Hne Hmk Hkey), Hfile.
  simpl. rewrite check_for_new_posts_nothing_seen.
  split_and!; [done | by destruct posts |].
  intros Hwr. unfold saved. by rewrite Hwr.
Qed.

Lemma first_run_reports_all_witness :
  mails (trace (main Fixture.env_up 3 Fixture.fresh).2)
  = [ alert_params Fixture.env_up
        [ Post "Deal A" "https://www.ozbargain.com.au/node/1" "01/02/2025";
          Post "Deal B" "https://external.example/x" "";
          Post "Deal C" "https://www.ozbargain.com.au/node/3" "02/02/2025";
          Post "Deal D" "https://www.ozbargain.com.au/node/4" "" ] ].
Proof.
  destruct (first_run_reports_all Fixture.env_up 3 Fixture.fresh _ _
              (crawl_web_up Fixture.env_up Fixture.fresh eq_refl eq_refl)
              fixture_posts_nonempty eq_refl)
    as (_ & Htrace & _); [by vm_compute | reflexivity |].
  etrans; [exact (f_equal mails Htrace)|]. by vm_compute.
Defined.

Lemma save_current_posts_no_dir (e : env) (posts : list post) (w : world) (err : string) :
  makedirs_error e = Some err →
  save_current_posts e posts w = (Raise (OSError err), log [MakeDirs] w).
Proof.
  intros Hmk. destruct w as [ps file t].
  unfold save_current_posts, os_makedirs, emit, raise, mbind, M_bind; simpl.
  by rewrite Hmk.
Qed.

(** X10 — when the directory of the state file cannot be created
    ([os.makedirs], line 156, is outside the [try]), a run with a non-empty
    crawl dies of the [OSError] with status 1 right after loading the seen
    links: the state file is not opened for writing and is as it was, and
    no mail is handed to the mail API, whether or not some post was new. *)
Theorem makedirs_failure_aborts (e : env) (fuel : nat) (w w1 : world)
    (posts : list post) (err : string) :
  scrape_all_pages e fuel (URL e) (log [Stdout (banner e)] w) = (Val posts, w1) →
  posts ≠ [] →
  makedirs_error e = Some err →
  main e fuel w =
    (Raise (OSError err),
     World posts (state_file w)
           (trace w1 ++ load_events e (state_file w) ++ [MakeDirs])) ∧
  exit_status (main e fuel w).1 = Some 1%Z.
Proof.
  intros Hcrawl Hne Hmk.
  rewrite (main_nonempty e fuel w w1 posts Hcrawl Hne).
  destruct (crawl_returns_list e fuel _ _ _ _ Hcrawl) as (t & -> & _).
  rewrite bind_run, load_last_posts_steps, bind_run.
  rewrite (save_current_posts_no_dir e posts _ err Hmk).
  unfold log; simpl. by rewrite <- !(assoc_L (++)).
Qed.

Lemma makedirs_failure_aborts_witness :
  (main Scenario.env_no_dir 3 Fixture.later).1
  = Raise (OSError "[Errno 2] No such file or directory: ''") ∧
  state_file (main Scenario.env_no_dir 3 Fixture.later).2 = state_file Fixture.later ∧
  mails (trace (main Scenario.env_no_dir 3 Fixture.later).2) = [].
Proof.
  destruct (makedirs_failure_aborts Scenario.env_no_dir 3 Fixture.later _ _
              "[Errno 2] No such file or directory: ''"
              (crawl_web_up Scenario.env_no_dir Fixture.later eq_refl eq_refl)
              fixture_posts_nonempty eq_refl) as [Hmain _].
  split_and!.
  - exact (f_equal fst Hmain).
  - exact (f_equal (λ r, state_file r.2) Hmain).
  - etrans; [exact (f_equal (λ r, mails (trace r.2)) Hmain)|]. by vm_compute.
Defined.

(** X11 — when the state file cannot be written, a run with a non-empty
    crawl (the directory being there, the API key set) prints a warning and
    goes on: it ends normally, the state file holds what the failed write
    left, and the new posts are reported as if the write had gone
    through. *)
Theorem write_failure_swallowed (e : env) (fuel : nat) (w w1 : world)
    (posts : list post) (err : string) (left_on_disk : option (list row)) :
  scrape_all_pages e fuel (URL e) (log [Stdout (banner e)] w) = (Val posts, w1) →
  posts ≠ [] →
  makedirs_error e = None →
  resend_api_key e ≠ "" →
  write_error e = Some (err, left_on_disk) →
  main e fuel w =
    (Val (),
     World posts left_on_disk
           (trace w1 ++ load_events e (state_file w)
            ++ [MakeDirs; OpenWrite; Stdout (write_warning e err)]
            ++ report_events e (check_for_new_posts posts (loaded e (state_file w))))).
Proof.
  intros Hcrawl Hne Hmk Hkey Hwr.
  rewrite (main_steps e fuel w w1 posts Hcrawl Hne Hmk Hkey).
  unfold saved, save_events. by rewrite Hwr.
Qed.

Lemma write_failure_swallowed_witness :
  (main (Scenario.env_read_only (state_file Fixture.later)) 3 Fixture.later).1 = Val () ∧
  state_file (main (Scenario.env_read_only (state_file Fixture.later)) 3 Fixture.later).2
  = state_file Fixture.later ∧
  length (mails (trace (main (Scenario.env_read_only (state_file Fixture.later)) 3
                             Fixture.later).2)) = 1.
Proof.
  pose proof (write_failure_swallowed (Scenario.env_read_only (state_file Fixture.later)) 3
                Fixture.later _ _ "[Errno 13] Permission denied"
                (state_file Fixture.later)
                (crawl_web_up (Scenario.env_read_only (state_file Fixture.later))
                              Fixture.later eq_refl eq_refl)
                fixture_posts_nonempty eq_refl) as Hmain.
  specialize (Hmain ltac:(by vm_compute) eq_refl).
  split_and!.
  - exact (f_equal fst Hmain).
  - exact (f_equal (λ r, state_file r.2) Hmain).
  - etrans; [exact (f_equal (λ r, length (mails (trace r.2))) Hmain)|]. by vm_compute.
Defined.

(** X12 — when the mail API raises, a run with new posts (the directory
    being there, the API key set) prints the error and ends normally with
    status 0; the state file was saved before the send, so it holds the
    collection all the same when the write went through. *)
Theorem send_failure_swallowed (e : env) (fuel : nat) (w w1 : world)
    (posts : list post) (err : string) :
  scrape_all_pages e fuel (URL e) (log [Stdout (banner e)] w) = (Val posts, w1) →
  posts ≠ [] →
  makedirs_error e = None →
  resend_api_key e ≠ "" →
  let new_posts := check_for_new_posts posts (loaded e (state_file w)) in
  new_posts ≠ [] →
  resend_send e (alert_params e new_posts) = inr err →
  exit_status (main e fuel w).1 = Some 0%Z ∧
  state_file (main e fuel w).2 = saved e posts ∧
  trace (main e fuel w).2
  = trace w1 ++ load_events e (state_file w) ++ save_events e
    ++ [ Stdout (found_line new_posts); EmailSend (alert_params e new_posts);
         Stdout ("Error sending email with Resend: " +:+ err) ].
Proof.
  intros Hcrawl Hne Hmk Hkey new_posts Hnew Hsend.
  rewrite (main_steps e fuel w w1 posts Hcrawl Hne Hmk Hkey).
  fold new_posts. split_and!; [done | done |]. simpl.
  unfold report_events. destruct new_posts as [|p ps]; [done|].
  by rewrite Hsend.
Qed.

Lemma send_failure_swallowed_witness :
  exit_status (main Scenario.env_mail_down 3 Fixture.later).1 = Some 0%Z ∧
  last (trace (main Scenario.env_mail_down 3 Fixture.later).2)
  = Some (Stdout "Error sending email with Resend: HTTP 401").
Proof.
  pose proof (send_failure_swallowed Scenario.env_mail_down 3 Fixture.later _ _
                "HTTP 401"
                (crawl_web_up Scenario.env_mail_down Fixture.later eq_refl eq_refl)
                fixture_posts_nonempty eq_refl) as Hsend.
  destruct Hsend as (Hexit & _ & Htrace);
    [by vm_compute | by vm_compute | reflexivity |].
  split; [exact Hexit|].
  etrans; [exact (f_equal last Htrace)|]. by vm_compute.
Defined.

(** X13 — after a crawl that returned, the directory of the state file
    being there, the main block ends normally with status 0 whatever the
    reader, the writer and the mail API do, all three failing at once
    included, and whether or not the API key is set: a failing read, a
    failing write and a failing send are each caught (lines 149, 170,
    210). *)
Theorem main_swallows_faults (e : env) (fuel : nat) (w w1 : world) (posts : list post) :
  scrape_all_pages e fuel (URL e) (log [Stdout (banner e)] w) = (Val posts, w1) →
  makedirs_error e = None →
  (main e fuel w).1 = Val () ∧
  exit_status (main e fuel w).1 = Some 0%Z ∧
  all_posts (main e fuel w).2 = posts.
Proof.
  intros Hcrawl Hmk.
  destruct (crawl_returns_list e fuel _ _ _ _ Hcrawl) as (t & Hw1 & _).
  destruct posts as [|p ps].
  - rewrite (main_empty e fuel w w1 Hcrawl). by subst w1.
  - rewrite (main_nonempty e fuel w w1 (p :: ps) Hcrawl) by done.
    rewrite bind_run, load_last_posts_steps, bind_run.
    rewrite (save_current_posts_steps e _ _ Hmk).
    match goal with |- context [report e ?n ?w'] =>
      destruct (report_run e n w') as (t' & ->) end.
    by subst w1.
Qed.

Lemma main_swallows_faults_witness :
  exit_status (main Scenario.env_all_faults 3 Fixture.later).1 = Some 0%Z.
Proof.
  exact (proj1 (proj2 (main_swallows_faults Scenario.env_all_faults 3 Fixture.later _ _
                         (crawl_web_up Scenario.env_all_faults Fixture.later
                                       eq_refl eq_refl)
                         eq_refl))).
Defined.

(** * More on the state file *)

Lemma strip_empty : strip "" = "".
Proof. reflexivity. Qed.

Lemma links_of_rows_elem (rows : list row) (l : string) :
  l ∈ links_of_rows rows ↔
  l ≠ "" ∧ ∃ r v, r ∈ rows ∧ r !! "link" = Some v ∧ strip v = l.
Proof.
  unfold links_of_rows. rewrite foldl_add_seen_link. split.
  - intros [?%not_elem_of_empty|(Hl & r & Hr & Heq)]; [done|].
    split; [done|]. destruct (r !! "link") as [v|] eqn:Hv; simpl in Heq.
    + by exists r, v.
    + rewrite strip_empty in Heq. congruence.
  - intros (Hl & r & v & Hr & Hv & Heq). right. split; [done|].
    exists r. split; [done|]. by rewrite Hv.
Qed.

Lemma links_of_saved_rows (C : list post) :
  (∀ p, p ∈ C → link p ≠ "" ∧ strip (link p) = link p) →
  links_of_rows (row_of_post <$> C) = list_to_set (link <$> C).
Proof.
  intros Hclean. apply set_eq. intros l.
  rewrite links_of_rows_elem, elem_of_list_to_set. split.
  - intros (Hl & r & v & (p & -> & Hp)%list_elem_of_fmap & Hv & Heq).
    rewrite row_of_post_link in Hv. injection Hv as <-.
    destruct (Hclean p Hp) as [_ Hstrip]. rewrite Hstrip in Heq. subst l.
    by apply list_elem_of_fmap_2.
  - intros (p & -> & Hp)%list_elem_of_fmap.
    destruct (Hclean p Hp) as [Hne Hstrip]. split; [done|].
    exists (row_of_post p), (link p).
    split_and!; [by apply list_elem_of_fmap_2 | apply row_of_post_link | done].
Qed.

(** X14 — what [load_last_posts] makes of any state file.  It never raises
    and changes neither the state file nor the list.  Without a file it
    returns the empty set after the existence test alone.  With a file, the
    set holds exactly the non-empty stripped values of the link column of
    the rows the reader yielded: rows without that column or with a blank
    link add nothing; and when the reader fails, the rows it yielded
    before still count and a warning is printed. *)
Theorem load_skips_unusable_rows (e : env) (w : world) :
  load_last_posts e w
  = (Val (loaded e (state_file w)),
     World (all_posts w) (state_file w) (trace w ++ load_events e (state_file w))) ∧
  (state_file w = None →
   loaded e (state_file w) = ∅ ∧ load_events e (state_file w) = [PathExists]) ∧
  (∀ rows l,
     state_file w = Some rows →
     l ∈ loaded e (state_file w) ↔
     l ≠ "" ∧ ∃ r v, r ∈ rows_read e rows ∧ r !! "link" = Some v ∧ strip v = l) ∧
  (∀ rows n err,
     state_file w = Some rows → read_error e = Some (n, err) →
     rows_read e rows = take n rows ∧
     last (load_events e (state_file w)) = Some (Stdout (read_warning e err))).
Proof.
  split_and!.
  - apply load_last_posts_steps.
  - by intros ->.
  - intros rows l ->. apply links_of_rows_elem.
  - intros rows n err -> Hrd. unfold rows_read, load_events. by rewrite Hrd.
Qed.

Lemma load_skips_unusable_rows_witness :
  elements (loaded Fixture.env_up (Some Scenario.odd_rows))
  = ["https://www.ozbargain.com.au/node/0"] ∧
  (load_last_posts Fixture.env_up (World [] (Some Scenario.odd_rows) [])).1
  = Val (loaded Fixture.env_up (Some Scenario.odd_rows)).
Proof.
  destruct (load_skips_unusable_rows Fixture.env_up (World [] (Some Scenario.odd_rows) []))
    as (Hload & _).
  split; [by vm_compute | by rewrite Hload].
Defined.

Lemma crawl_returns_usable (e : env) (fuel : nat) (url : string) (w w1 : world)
    (posts : list post) (p : post) :
  scrape_all_pages e fuel url w = (Val posts, w1) → p ∈ posts → link p ≠ "".
Proof.
  intros Hcrawl Hp.
  destruct (scrape_all_pages_effect e fuel url w) as (t & _ & _ & Hr).
  rewrite Hcrawl in Hr; simpl in Hr. subst posts.
  assert (p ∈ discovered e t) as Hd
    by (eapply elem_of_sublist; [exact Hp | apply first_wins_from_sublist]).
  destruct (discovered_usable e t p Hd) as (a & Ha).
  by destruct (entry_of_usable a p Ha) as (_ & Hl & _).
Qed.

(** A crawl that returned returns the same from any world. *)
Lemma crawl_again (e : env) (fuel : nat) (url : string) (w w1 : world)
    (posts : list post) :
  scrape_all_pages e fuel url w = (Val posts, w1) →
  ∃ t, Forall crawl_event t ∧
       ∀ w', scrape_all_pages e fuel url w'
             = (Val posts, World posts (state_file w') (trace w' ++ t)).
Proof.
  intros Hcrawl. rewrite scrape_all_pages_frame in Hcrawl.
  destruct (scrape_all_pages e fuel url (World [] None [])) as [r0 w0] eqn:H0.
  simpl in Hcrawl. injection Hcrawl as -> _.
  destruct (crawl_returns_list e fuel url _ _ _ H0) as (t & -> & Ht).
  exists t. split; [done|]. intros w'.
  by rewrite scrape_all_pages_frame, H0.
Qed.

Lemma mails_crawl_events (t : list event) : Forall crawl_event t → mails t = [].
Proof.
  induction 1 as [|ev t Hev _ IH]; [done|].
  unfold mails in *. destruct ev; simpl; done.
Qed.

(** X15 — running twice against an unchanged listing: after a run whose
    crawl returned a non-empty collection of links without whitespace at
    either end and whose write went through, a second run (same web, same
    fuel, directory there, API key set, no read fault) from the state file
    the first run left, whatever else its world holds, finds the same
    collection, hands no mail to the mail API, ends by printing that there
    are no new posts, and leaves the state file with the same rows.  This
    holds whatever the mail API did in the first run: an alert whose
    sending failed is not sent again. *)
Theorem second_run_silent (e : env) (fuel : nat) (w w1 : world) (posts : list post)
    (w' : world) :
  scrape_all_pages e fuel (URL e) (log [Stdout (banner e)] w) = (Val posts, w1) →
  posts ≠ [] →
  disk_sound e →
  resend_api_key e ≠ "" →
  (∀ p, p ∈ posts → strip (link p) = link p) →
  state_file w' = state_file (main e fuel w).2 →
  ∃ t,
    main e fuel w' =
      (Val (), World posts (Some (row_of_post <$> posts)) (trace w' ++ t)) ∧
    mails t = [] ∧
    last t = Some (Stdout "No new posts since last check.").
Proof.
  intros Hcrawl Hne (Hmk & Hrd & Hwr) Hkey Hclean Hfile.
  rewrite (main_steps e fuel w w1 posts Hcrawl Hne Hmk Hkey) in Hfile.
  unfold saved in Hfile. rewrite Hwr in Hfile. simpl in Hfile.
  destruct (crawl_again e fuel _ _ _ _ Hcrawl) as (t & Ht & Hagain).
  rewrite (main_steps e fuel w' _ posts (Hagain _) Hne Hmk Hkey).
  assert (loaded e (state_file w') = list_to_set (link <$> posts)) as ->.
  { rewrite Hfile. unfold loaded, rows_read. rewrite Hrd.
    apply links_of_saved_rows. intros p Hp. split; [|by apply Hclean].
    by eapply crawl_returns_usable. }
  rewrite check_for_new_posts_all_seen by done.
  unfold saved, save_events, load_events. rewrite Hwr, Hfile, Hrd. simpl.
  exists ([Stdout (banner e)] ++ t
          ++ [PathExists; OpenRead; MakeDirs; OpenWrite;
              Stdout "No new posts since last check."]).
  split_and!.
  - do 2 f_equal. by rewrite <- !(assoc_L (++)).
  - rewrite !mails_app, (mails_crawl_events t Ht). done.
  - rewrite (assoc_L (++) _ t).
    change [PathExists; OpenRead; MakeDirs; OpenWrite;
            Stdout "No new posts since last check."]
      with ([PathExists; OpenRead; MakeDirs; OpenWrite]
            ++ [Stdout "No new posts since last check."]).
    by rewrite (assoc_L (++)), last_snoc.
Qed.

Lemma second_run_silent_witness :
  mails (trace (main Scenario.env_mail_down 3
                     (World [] (state_file (main Scenario.env_mail_down 3
                                                 Fixture.fresh).2) [])).2) = [] ∧
  length (mails (trace (main Scenario.env_mail_down 3 Fixture.fresh).2)) = 1.
Proof.
  destruct (second_run_silent Scenario.env_mail_down 3 Fixture.fresh _ _
              (World [] (state_file (main Scenario.env_mail_down 3 Fixture.fresh).2) [])
              (crawl_web_up Scenario.env_mail_down Fixture.fresh eq_refl eq_refl)
              fixture_posts_nonempty)
    as (t & Hmain & Hmails & _).
  - by split_and!.
  - by vm_compute.
  - intros p Hp. vm_compute in Hp.
    repeat (apply elem_of_cons in Hp as [->|Hp]; [by vm_compute|]).
    by apply elem_of_nil in Hp.
  - reflexivity.
  - split; [|by vm_compute].
    etrans; [exact (f_equal (λ r, mails (trace r.2)) Hmain)|]. exact Hmails.
Defined.

(** * More on the list and the delta *)

(** X16 — the list is append-only: a call of [scrape_page], whatever the
    fuel and however it ends, leaves the records the list held in place
    and in order and appends records whose links the list did not hold
    and that differ from one another. *)
Theorem scrape_page_appends_only (e : env) (fuel : nat) (url : string) (w : world) :
  ∃ added,
    all_posts (scrape_page e fuel url w).2 = all_posts w ++ added ∧
    distinct_links added ∧
    ∀ p, p ∈ added → link p ∉ link <$> all_posts w.
Proof.
  destruct (scrape_page_effect e fuel url w) as (t & Hw & _ & _).
  rewrite Hw; simpl. rewrite merge_first_wins_from.
  eexists. split_and!; [done | apply first_wins_from_distinct |].
  intros p Hp%first_wins_from_fresh. by rewrite elem_of_list_to_set in Hp.
Qed.

Lemma scrape_page_appends_only_witness :
  ∃ added,
    all_posts (scrape_page Fixture.env_up 3 Fixture.url1
                 (World [Fixture.old_post] None [])).2
    = [Fixture.old_post] ++ added ∧
    distinct_links added ∧
    ∀ p, p ∈ added → link p ∉ link <$> [Fixture.old_post].
Proof.
  exact (scrape_page_appends_only Fixture.env_up 3 Fixture.url1
           (World [Fixture.old_post] None [])).
Defined.

Lemma any_link_after_append (posts : list post) (p : post) :
  any_link (link p) (append_if_new posts p) = true.
Proof.
  unfold append_if_new. destruct (any_link (link p) posts) eqn:Hany; [done|].
  apply any_link_elem. rewrite fmap_app. apply elem_of_app. right.
  apply list_elem_of_here.
Qed.

(** X17 — deduplication is by the resolved link: an anchor whose href is
    site-relative and an anchor whose href is the same address written out
    with the base URL yield the same link, so whichever comes second is
    dropped. *)
Theorem relative_and_absolute_merge (a1 a2 : a_tag) (p1 p2 : post) (rest : string)
    (posts : list post) :
  get_href a1 = Some ("/" +:+ rest) →
  get_href a2 = Some (BASE_URL +:+ "/" +:+ rest) →
  entry_of a1 = Some p1 →
  entry_of a2 = Some p2 →
  link p1 = link p2 ∧
  merge posts [p1; p2] = merge posts [p1] ∧
  merge posts [p2; p1] = merge posts [p2].
Proof.
  intros Hh1 Hh2 He1 He2.
  assert (link p1 = link p2) as Hlink.
  { unfold entry_of in He1, He2. rewrite Hh1 in He1. rewrite Hh2 in He2.
    cbn [default] in He1, He2.
    match type of He1 with (if ?b then _ else _) = _ => destruct b end; [done|].
    match type of He2 with (if ?b then _ else _) = _ => destruct b end; [done|].
    injection He1 as <-. injection He2 as <-. cbn [link]. unfold link_full_of.
    rewrite (proj2 (startswith_slash ("/" +:+ rest))) by eauto.
    assert (startswith (BASE_URL +:+ "/" +:+ rest) "/" = false) as -> by reflexivity.
    done. }
  split; [done|]. unfold merge. cbn [foldl]. split.
  - unfold append_if_new at 1. by rewrite <- Hlink, any_link_after_append.
  - unfold append_if_new at 1. by rewrite Hlink, any_link_after_append.
Qed.

Lemma relative_and_absolute_merge_witness :
  merge [] [ Post "Deal A" (link_full_of "/node/1") "";
             Post "Deal A again" (link_full_of "https://www.ozbargain.com.au/node/1") "" ]
  = merge [] [ Post "Deal A" (link_full_of "/node/1") "" ].
Proof.
  exact (proj1 (proj2 (relative_and_absolute_merge
                         (Anchor "Deal A" (Some "/node/1") None)
                         (Anchor "Deal A again"
                                 (Some "https://www.ozbargain.com.au/node/1") None)
                         _ _ "node/1" [] eq_refl eq_refl eq_refl eq_refl))).
Defined.

(** X18 — how the delta composes: over a concatenation it is the
    concatenation of the deltas; taking it against one set and then
    another is taking it against their union, so taking it twice against
    the same set changes nothing; against a larger set it is a subsequence
    of what it is against a smaller one; and it keeps links distinct. *)
Theorem check_for_new_posts_composes (C1 C2 : list post) (S1 S2 : gset string) :
  check_for_new_posts (C1 ++ C2) S1
  = check_for_new_posts C1 S1 ++ check_for_new_posts C2 S1 ∧
  check_for_new_posts (check_for_new_posts C1 S1) S2
  = check_for_new_posts C1 (S1 ∪ S2) ∧
  check_for_new_posts (check_for_new_posts C1 S1) S1 = check_for_new_posts C1 S1 ∧
  (S1 ⊆ S2 → check_for_new_posts C1 S2 `sublist_of` check_for_new_posts C1 S1) ∧
  (distinct_links C1 → distinct_links (check_for_new_posts C1 S1)).
Proof.
  assert (∀ C Sa Sb, check_for_new_posts (check_for_new_posts C Sa) Sb
                     = check_for_new_posts C (Sa ∪ Sb)) as Htwice.
  { intros C Sa Sb. induction C as [|p C IH]; simpl; [done|].
    case_bool_decide as Ha.
    - rewrite bool_decide_eq_true_2 by set_solver. done.
    - simpl. case_bool_decide as Hb.
      + rewrite bool_decide_eq_true_2 by set_solver. done.
      + rewrite bool_decide_eq_false_2 by set_solver. by rewrite IH. }
  split_and!.
  - rewrite !check_for_new_posts_filter. apply filter_app.
  - apply Htwice.
  - rewrite Htwice. by replace (S1 ∪ S1) with S1 by set_solver.
  - intros Hsub. replace S2 with (S1 ∪ S2) by set_solver.
    rewrite <- Htwice. apply check_for_new_posts_sublist.
  - apply check_for_new_posts_distinct.
Qed.

Lemma check_for_new_posts_composes_witness :
  check_for_new_posts [Fixture.old_post; Fixture.spaced_post]
                      {[ "https://www.ozbargain.com.au/node/0" ]}
  `sublist_of` check_for_new_posts [Fixture.old_post; Fixture.spaced_post] ∅.
Proof.
  destruct (check_for_new_posts_composes [Fixture.old_post; Fixture.spaced_post] []
              ∅ {[ "https://www.ozbargain.com.au/node/0" ]}) as (_ & _ & _ & Hmono & _).
  apply Hmono. set_solver.
Defined.

(** * More on the alert *)

Lemma string_app_assoc (s1 s2 s3 : string) :
  (s1 +:+ s2) +:+ s3 = s1 +:+ (s2 +:+ s3).
Proof.
  induction s1 as [|c s1 IH]; [done|].
  change (String c ((s1 +:+ s2) +:+ s3) = String c (s1 +:+ s2 +:+ s3)).
  by rewrite IH.
Qed.

Lemma html_add_block (html_body : string) (p : post) :
  html_add html_body p = html_body +:+ post_block p.
Proof. reflexivity. Qed.

Lemma foldl_html_add (html_body : string) (posts : list post) :
  foldl html_add html_body posts
  = html_body +:+ foldr String.append "" (post_block <$> posts).
Proof.
  revert html_body. induction posts as [|p posts IH]; intros html_body.
  - cbn [foldl fmap list_fmap foldr].
    induction html_body as [|c s IHs]; [done|].
    change (String c s = String c (s +:+ "")). by rewrite <- IHs.
  - cbn [foldl fmap list_fmap foldr].
    by rewrite IH, html_add_block, string_app_assoc.
Qed.

(** X19 — the mail for a list of posts: it goes from the sender to the one
    recipient, its subject carries the title label and the number of
    posts, and its body is the heading followed by one block per post, in
    the order of the list, each block giving the title, the date and the
    link of its post; the body for a longer list extends the body for a
    shorter one. *)
Theorem alert_lists_posts_in_order (e : env) (posts more : list post) :
  from (alert_params e posts) = SENDER_EMAIL e ∧
  to (alert_params e posts) = [RECIPIENT_EMAIL e] ∧
  subject (alert_params e posts)
  = "üö® " +:+ TITLE e +:+ " Alert: " +:+ pretty (length posts)
    +:+ " New Posts Found" ∧
  html (alert_params e posts)
  = ("<h1>New Deals Found: " +:+ TITLE e +:+ "</h1>")
    +:+ foldr String.append "" (post_block <$> posts) ∧
  html (alert_params e (posts ++ more))
  = html (alert_params e posts) +:+ foldr String.append "" (post_block <$> more).
Proof.
  split_and!; [done | done | done | apply foldl_html_add |].
  unfold alert_params; simpl. by rewrite foldl_app, foldl_html_add.
Qed.

Lemma alert_lists_posts_in_order_witness :
  html (alert_params Fixture.env_up [Fixture.old_post])
  = "<h1>New Deals Found: Deals</h1>" +:+ post_block Fixture.old_post.
Proof.
  destruct (alert_lists_posts_in_order Fixture.env_up [Fixture.old_post] [])
    as (_ & _ & _ & Hhtml & _).
  rewrite Hhtml. reflexivity.
Defined.

Lemma send_alert_email_keyed (e : env) (new_posts : list post) (w : world) :
  resend_api_key e ≠ "" →
  send_alert_email e new_posts w
  = (Val (),
     log [ EmailSend (alert_params e new_posts);
           Stdout (send_line (resend_send e (alert_params e new_posts))) ] w).
Proof.
  intros Hkey. destruct w as [posts file t].
  unfold send_alert_email, resend_emails_send, print, emit, log, mbind, M_bind; simpl.
  rewrite bool_decide_eq_false_2 by done. simpl.
  destruct (resend_send e _) as [id|err]; simpl; by rewrite <- !(assoc_L (++)).
Qed.

(** X20 — once [check_environment_vars] has returned, each module global of
    lines 43-51 holds the non-empty value the environment gives its key, so
    the branch of line 182 ("RESEND_API_KEY not set") cannot be taken:
    every call of [send_alert_email] hands the mail API exactly one mail,
    prints one line, returns normally whatever the API answers, and leaves
    the state file alone. *)
Theorem checked_globals_bound (e : env) (w : world) :
  (check_environment_vars (environ e) w).1 = Val () →
  (environ e !! "URL" = Some (URL e) ∧ URL e ≠ "") ∧
  (environ e !! "LAST_POSTS_FILE" = Some (LAST_POSTS_FILE e) ∧ LAST_POSTS_FILE e ≠ "") ∧
  (environ e !! "SENDER_EMAIL" = Some (SENDER_EMAIL e) ∧ SENDER_EMAIL e ≠ "") ∧
  (environ e !! "RECIPIENT_EMAIL" = Some (RECIPIENT_EMAIL e) ∧ RECIPIENT_EMAIL e ≠ "") ∧
  (environ e !! "TITLE" = Some (TITLE e) ∧ TITLE e ≠ "") ∧
  (environ e !! "RESEND_API_KEY" = Some (resend_api_key e) ∧ resend_api_key e ≠ "") ∧
  ∀ new_posts w',
    send_alert_email e new_posts w'
    = (Val (),
       World (all_posts w') (state_file w')
             (trace w' ++ [ EmailSend (alert_params e new_posts);
                            Stdout (send_line (resend_send e (alert_params e new_posts))) ])).
Proof.
  intros Hcheck.
  assert (missing_vars (environ e) = []) as Hnone.
  { unfold check_environment_vars in Hcheck.
    destruct (missing_vars (environ e)) as [|m ms]; [done|].
    by destruct w. }
  assert (∀ var, var ∈ required_vars →
                 environ e !! var = Some (getenv e var) ∧ getenv e var ≠ "") as Hbound.
  { intros var Hvar. unfold getenv.
    destruct (check_passes_bound (environ e) var Hnone Hvar) as (v & -> & Hv). done. }
  split_and!; try (apply Hbound; unfold required_vars; set_solver).
  intros new_posts w'. apply send_alert_email_keyed.
  apply (Hbound "RESEND_API_KEY"). unfold required_vars; set_solver.
Qed.

Lemma checked_globals_bound_witness :
  environ Fixture.env_up !! "URL" = Some "https://www.ozbargain.com.au/deals" ∧
  resend_api_key Fixture.env_up ≠ "".
Proof.
  destruct (checked_globals_bound Fixture.env_up Fixture.fresh eq_refl)
    as ([Hurl _] & _ & _ & _ & _ & [_ Hkey] & _).
  split; [by rewrite Hurl | exact Hkey].
Defined.

(** X21 — what [save_current_posts] writes when the directory is there and
    the write goes through: one row per post, in the order of the posts,
    each row having exactly the columns title, link and date with the
    values of its post; the list is left alone, and the file is not
    read. *)
Theorem save_writes_one_row_per_post (e : env) (posts : list post) (w : world) :
  makedirs_error e = None →
  write_error e = None →
  ∃ rows,
    save_current_posts e posts w
    = (Val (), World (all_posts w) (Some rows) (trace w ++ [MakeDirs; OpenWrite])) ∧
    length rows = length posts ∧
    ∀ i p, posts !! i = Some p →
           ∃ r, rows !! i = Some r ∧
                dom r = {[ "title"; "link"; "date" ]} ∧
                r !! "title" = Some (title p) ∧
                r !! "link" = Some (link p) ∧
                r !! "date" = Some (date p).
Proof.
  intros Hmk Hwr. exists (row_of_post <$> posts).
  rewrite (save_current_posts_run e posts w Hmk), Hwr.
  split_and!; [done | apply length_fmap |].
  intros i p Hp. exists (row_of_post p).
  rewrite list_lookup_fmap, Hp. split_and!; [done | | | apply row_of_post_link |].
  - unfold row_of_post. rewrite !dom_insert_L, dom_empty_L. set_solver.
  - unfold row_of_post. apply lookup_insert_eq.
  - unfold row_of_post.
    by rewrite (lookup_insert_ne _ "title" "date"), (lookup_insert_ne _ "link" "date"),
      lookup_insert_eq.
Qed.

Lemma save_writes_one_row_per_post_witness :
  ∃ rows,
    state_file (save_current_posts Fixture.env_up [Fixture.old_post] Fixture.fresh).2
    = Some rows ∧ length rows = 1.
Proof.
  destruct (save_writes_one_row_per_post Fixture.env_up [Fixture.old_post] Fixture.fresh
              eq_refl eq_refl) as (rows & Hsave & Hlen & _).
  exists rows. by rewrite Hsave.
Defined.

(** * Stripping *)

Lemma string_app_nil_r (s : string) : s +:+ "" = s.
Proof.
  induction s as [|c s IH]; [done|].
  change (String c (s +:+ "") = String c s). by rewrite IH.
Qed.

Lemma string_rev_app (s1 s2 : string) :
  string_rev (s1 +:+ s2) = string_rev s2 +:+ string_rev s1.
Proof.
  induction s1 as [|c s1 IH].
  - change (string_rev s2 = string_rev s2 +:+ ""). by rewrite string_app_nil_r.
  - change (string_rev (s1 +:+ s2) +:+ String c ""
            = string_rev s2 +:+ (string_rev s1 +:+ String c "")).
    by rewrite IH, string_app_assoc.
Qed.

Lemma string_rev_involutive (s : string) : string_rev (string_rev s) = s.
Proof.
  induction s as [|c s IH]; [done|].
  change (string_rev (string_rev s +:+ String c "") = String c s).
  by rewrite string_rev_app, IH.
Qed.

Lemma string_rev_length (s : string) : String.length (string_rev s) = String.length s.
Proof.
  induction s as [|c s IH]; [done|].
  change (String.length (string_rev s +:+ String c "") = S (String.length s)).
  rewrite string_length_app, IH. simpl. lia.
Qed.

Lemma drop_prefix_spec (pre s rest : string) :
  drop_prefix pre s = Some rest ↔ s = pre +:+ rest.
Proof.
  revert s. induction pre as [|a pre IH]; intros s.
  - simpl. split; [by intros [= ->] | by intros ->].
  - destruct s as [|b s]; simpl; [done|].
    change (String a pre +:+ rest) with (String a (pre +:+ rest)).
    case_bool_decide as Hab.
    + subst b. rewrite IH. split; [by intros -> | by intros [= ->]].
    + split; [done | by intros [= ? ?]].
Qed.

Lemma drop_one_Some (chars : list string) (s rest : string) :
  drop_one chars s = Some rest → ∃ c, c ∈ chars ∧ s = c +:+ rest.
Proof.
  induction chars as [|c chars IH]; simpl; [done|].
  destruct (drop_prefix c s) as [r|] eqn:Hc.
  - intros [= ->]. exists c. split; [apply list_elem_of_here | by apply drop_prefix_spec].
  - intros (c' & Hc' & Heq)%IH. exists c'. split; [by apply list_elem_of_further | done].
Qed.

Lemma drop_one_starts (chars : list string) (c s rest : string) :
  c ∈ chars → s = c +:+ rest → drop_one chars s ≠ None.
Proof.
  intros Hc Hs. induction chars as [|c0 chars IH]; [by apply elem_of_nil in Hc|].
  simpl. destruct (drop_prefix c0 s) as [r|] eqn:H0; [done|].
  apply elem_of_cons in Hc as [->|Hc]; [|by apply IH].
  apply drop_prefix_spec in Hs. congruence.
Qed.

Lemma drop_one_shorter (chars : list string) (s rest : string) :
  Forall (λ c, c ≠ "") chars →
  drop_one chars s = Some rest → String.length rest < String.length s.
Proof.
  intros Hne (c & Hc & ->)%drop_one_Some.
  rewrite Forall_forall in Hne. specialize (Hne c Hc).
  rewrite string_length_app. destruct c; [done | simpl; lia].
Qed.

Lemma drop_leading_done (n : nat) (chars : list string) (s : string) :
  Forall (λ c, c ≠ "") chars →
  String.length s ≤ n →
  drop_one chars (drop_leading n chars s) = None.
Proof.
  intros Hne. revert s. induction n as [|n IH]; intros s Hlen; simpl.
  - destruct s; [|simpl in Hlen; lia].
    destruct (drop_one chars "") as [r|] eqn:Hd; [|done].
    apply (drop_one_shorter _ _ _ Hne) in Hd. simpl in Hd. lia.
  - destruct (drop_one chars s) as [r|] eqn:Hd; [|done].
    apply IH. apply (drop_one_shorter _ _ _ Hne) in Hd. lia.
Qed.

Lemma drop_leading_id (n : nat) (chars : list string) (s : string) :
  drop_one chars s = None → drop_leading n chars s = s.
Proof. intros Hd. destruct n; simpl; [done | by rewrite Hd]. Qed.

Lemma drop_leading_suffix (n : nat) (chars : list string) (s : string) :
  ∃ pre, s = pre +:+ drop_leading n chars s.
Proof.
  revert s. induction n as [|n IH]; intros s; simpl; [by exists ""|].
  destruct (drop_one chars s) as [r|] eqn:Hd; [|by exists ""].
  apply drop_one_Some in Hd as (c & _ & ->).
  destruct (IH r) as (pre & Hr). exists (c +:+ pre).
  by rewrite string_app_assoc, <- Hr.
Qed.

Lemma whitespace_nonempty : Forall (λ c, c ≠ "") whitespace.
Proof. unfold whitespace. simpl. repeat constructor; done. Qed.

Lemma whitespace_rev_nonempty : Forall (λ c, c ≠ "") (string_rev <$> whitespace).
Proof. unfold whitespace. vm_compute. repeat constructor; done. Qed.

Lemma lstrip_no_lead (s : string) : drop_one whitespace (lstrip s) = None.
Proof. apply drop_leading_done; [apply whitespace_nonempty | done]. Qed.

Lemma rstrip_prefix (s : string) : ∃ suf, s = rstrip s +:+ suf.
Proof.
  unfold rstrip.
  destruct (drop_leading_suffix (String.length s) (string_rev <$> whitespace)
              (string_rev s)) as (pre & Hpre).
  exists (string_rev pre).
  rewrite <- string_rev_app, <- Hpre. by rewrite string_rev_involutive.
Qed.

Lemma rstrip_no_trail (s : string) :
  drop_one (string_rev <$> whitespace) (string_rev (rstrip s)) = None.
Proof.
  unfold rstrip. rewrite string_rev_involutive.
  apply drop_leading_done; [apply whitespace_rev_nonempty|].
  by rewrite string_rev_length.
Qed.

Lemma rstrip_keeps_no_lead (s : string) :
  drop_one whitespace s = None → drop_one whitespace (rstrip s) = None.
Proof.
  intros Hs. destruct (drop_one whitespace (rstrip s)) as [r|] eqn:Hd; [|done].
  apply drop_one_Some in Hd as (c & Hc & Hr).
  destruct (rstrip_prefix s) as (suf & Hsuf). rewrite Hr, string_app_assoc in Hsuf.
  by destruct (drop_one_starts whitespace c s (r +:+ suf) Hc Hsuf).
Qed.

(** Stripping what was stripped changes nothing. *)
Lemma strip_idempotent (s : string) : strip (strip s) = strip s.
Proof.
  unfold strip at 1.
  assert (lstrip (strip s) = strip s) as ->.
  { unfold lstrip. apply drop_leading_id. unfold strip.
    apply rstrip_keeps_no_lead, lstrip_no_lead. }
  unfold rstrip at 1. rewrite drop_leading_id, string_rev_involutive; [done|].
  unfold strip. apply rstrip_no_trail.
Qed.

(** X22 — every link [load_last_posts] returns is non-empty and has no
    whitespace at either end (stripping it changes nothing), whatever the
    state file holds.  So a post whose scraped link is changed by
    stripping, one with whitespace at an end, is in the delta against the
    links loaded from any state file, also one its own row was saved to:
    it counts as new in every run. *)
Theorem padded_link_always_new (e : env) (file : option (list row)) (posts : list post)
    (p : post) :
  (∀ l, l ∈ loaded e file → l ≠ "" ∧ strip l = l) ∧
  (p ∈ posts → strip (link p) ≠ link p →
   p ∈ check_for_new_posts posts (loaded e file)).
Proof.
  assert (∀ l, l ∈ loaded e file → l ≠ "" ∧ strip l = l) as Hclean.
  { intros l. unfold loaded. destruct file as [rows|]; [|by intros ?%not_elem_of_empty].
    intros (Hl & r & v & _ & _ & <-)%links_of_rows_elem.
    split; [done | apply strip_idempotent]. }
  split; [done|]. intros Hp Hpad.
  rewrite check_for_new_posts_filter. apply list_elem_of_filter. split; [|done].
  intros Hin. by destruct (Hclean _ Hin) as [_ Hfix].
Qed.

Lemma padded_link_always_new_witness :
  Fixture.spaced_post
  ∈ check_for_new_posts [Fixture.old_post; Fixture.spaced_post]
      (loaded Fixture.env_up
         (Some (row_of_post <$> [Fixture.old_post; Fixture.spaced_post]))).
Proof.
  apply (padded_link_always_new Fixture.env_up
           (Some (row_of_post <$> [Fixture.old_post; Fixture.spaced_post]))
           [Fixture.old_post; Fixture.spaced_post] Fixture.spaced_post).
  - apply list_elem_of_further, list_elem_of_here.
  - by vm_compute.
Defined.

(** * More on entries and the snapshot *)

(** X23 — which anchors give a record (lines 86-99): none when the href is
    missing or empty or the text is empty; otherwise one whose title is the
    text and whose date is the text of the meta span of the [dd] following
    the enclosing [dt], or the empty string as soon as the [dt], the [dd]
    or the span is missing; a missing date never costs the record. *)
Theorem entry_of_cases (a : a_tag) :
  (entry_of a = None ↔
   get_href a = None ∨ get_href a = Some "" ∨ get_text a = "") ∧
  (∀ p, entry_of a = Some p →
        title p = get_text a ∧
        (date p ≠ "" →
         ∃ dt dd, find_parent_dt a = Some dt ∧ find_next_sibling_dd dt = Some dd ∧
                  select_one_span_meta dd = Some (date p))) ∧
  (∀ dt dd text,
     find_parent_dt a = Some dt → find_next_sibling_dd dt = Some dd →
     select_one_span_meta dd = Some text →
     ∀ p, entry_of a = Some p → date p = text).
Proof.
  unfold entry_of. split_and!.
  - destruct (get_href a) as [href|]; simpl.
    + case_bool_decide as Hh; simpl.
      * split; [intros _; right; left; by subst | done].
      * case_bool_decide as Ht; simpl.
        -- split; [by intros _; right; right | done].
        -- split; [done | intros [?|[[= ?]|?]]; done].
    + split; [by left | done].
  - intros p He.
    match type of He with (if ?b then _ else _) = _ => destruct b end; [done|].
    injection He as <-. cbn [title date]. split; [done|]. unfold date_text_of.
    destruct (find_parent_dt a) as [dt|]; [|done].
    destruct (find_next_sibling_dd dt) as [dd|] eqn:Hdd; [|done].
    destruct (select_one_span_meta dd) as [text|] eqn:Hspan; [|done].
    intros _. by exists dt, dd.
  - intros dt dd text Hdt Hdd Hspan p He.
    match type of He with (if ?b then _ else _) = _ => destruct b end; [done|].
    injection He as <-. cbn [date]. unfold date_text_of. by rewrite Hdt, Hdd, Hspan.
Qed.

Lemma entry_of_cases_witness :
  date (Post "Deal A" (link_full_of "/node/1") "01/02/2025") = "01/02/2025".
Proof.
  destruct (entry_of_cases (Anchor "Deal A" (Some "/node/1")
                                   (Fixture.dated "01/02/2025")))
    as (_ & _ & Hdate).
  exact (Hdate _ _ "01/02/2025" eq_refl eq_refl eq_refl _ eq_refl).
Defined.

(** X24 — the state file is a snapshot, not a log: after a run whose crawl
    returned a non-empty collection and whose write went through (the
    directory being there, the API key set), the links loaded from the
    state file are all stripped links of that collection, whatever the
    file held before.  A post the earlier file knew and this crawl did not
    return is forgotten: its link is not among the loaded links, so it
    counts as new when it shows up again. *)
Theorem snapshot_forgets (e : env) (fuel : nat) (w w1 : world) (posts : list post) :
  scrape_all_pages e fuel (URL e) (log [Stdout (banner e)] w) = (Val posts, w1) →
  posts ≠ [] →
  makedirs_error e = None →
  write_error e = None →
  resend_api_key e ≠ "" →
  (∀ l, l ∈ loaded e (state_file (main e fuel w).2) →
        ∃ p, p ∈ posts ∧ strip (link p) = l) ∧
  (∀ q later_posts,
     q ∈ later_posts →
     (∀ p, p ∈ posts → strip (link p) ≠ link q) →
     q ∈ check_for_new_posts later_posts (loaded e (state_file (main e fuel w).2))).
Proof.
  intros Hcrawl Hne Hmk Hwr Hkey.
  rewrite (main_steps e fuel w w1 posts Hcrawl Hne Hmk Hkey).
  unfold saved. rewrite Hwr. cbn [snd state_file].
  assert (∀ l, l ∈ loaded e (Some (row_of_post <$> posts)) →
               ∃ p, p ∈ posts ∧ strip (link p) = l) as Hsub.
  { intros l. unfold loaded.
    intros (_ & r & v & Hr & Hv & <-)%links_of_rows_elem.
    assert (r ∈ row_of_post <$> posts) as (p & -> & Hp)%list_elem_of_fmap.
    { unfold rows_read in Hr. destruct (read_error e) as [[n err]|]; [|done].
      eapply elem_of_sublist; [exact Hr | apply sublist_take]. }
    rewrite row_of_post_link in Hv. injection Hv as <-. eauto. }
  split; [done|]. intros q later_posts Hq Hnot.
  rewrite check_for_new_posts_filter. apply list_elem_of_filter. split; [|done].
  intros (p & Hp & Heq)%Hsub. by destruct (Hnot p Hp).
Qed.

Lemma snapshot_forgets_witness :
  Fixture.old_post
  ∈ check_for_new_posts [Fixture.old_post]
      (loaded Fixture.env_up (state_file (main Fixture.env_up 3 Fixture.later).2)).
Proof.
  destruct (snapshot_forgets Fixture.env_up 3 Fixture.later _ _
              (crawl_web_up Fixture.env_up Fixture.later eq_refl eq_refl)
              fixture_posts_nonempty eq_refl eq_refl) as [_ Hnew]; [by vm_compute|].
  apply Hnew; [apply list_elem_of_here|].
  intros p Hp. vm_compute in Hp.
  repeat (apply elem_of_cons in Hp as [->|Hp]; [by vm_compute|]).
  by apply elem_of_nil in Hp.
Defined.
